(** * LUNA: the retrying agent dispatcher of [services/agent_service.py]

    A shallow embedding of the module that offloads blocking agent calls to a
    thread pool, waits for them under a deadline and retries failed attempts
    with exponential backoff and jitter.  Python objects that are shared and
    mutated (the module global [_executor] and the pool objects it refers to)
    live in an explicit store; effects (logging, pool submission, waiting,
    sleeping, random draws) are threaded through a small state/error monad
    that also records the observable events in order.

    Idealisations: Python floats (delays, timeouts, jitter) are rationals;
    the external agent is an oracle giving, for each call, its duration and
    whether it returns a response or raises; exceptions are instances of
    [Exception]; one call of the dispatcher runs at a time, so work queued or
    running inside a pool is not represented.

    The second part embeds the service around the dispatcher: the
    bearer-token check of [utils/auth.py], [Settings.parse_csv] and the CORS
    origins of [config/settings.py], the password tool of
    [tools/gerador_senhas.py], the middlewares of [utils/request_id.py] and
    [utils/access_log.py], the routes of [api/routes.py], the lifespan of
    [main.py] and the file name of [utils/output_handler.py].  There a Python
    string whose characters matter one by one is the list of its code points,
    header names and values are strings of characters below 256, and what
    the code takes from outside (the environment, the random generator,
    [uuid4], the clock, the Unicode table behind [isalnum]) is a parameter. *)

From Stdlib Require Import ZArith NArith QArith Qminmax Lqa Lia List String Ascii.
From stdpp Require Import base option gmap strings list.

Local Open Scope string_scope.
Local Open Scope list_scope.
Local Open Scope Z_scope.

(** ** Python values and exceptions *)

(** The values a content block can hold under a key.  [POther b] stands for
    an object of any other type (a nested dict, a list, ...) whose truth value
    is [b]. *)
Inductive pyval : Type :=
| PNone
| PBool (b : bool)
| PInt (z : Z)
| PStr (s : string)
| POther (truth : bool).

(** [bool(v)] in Python. *)
Definition truthy (v : pyval) : bool :=
  match v with
  | PNone => false
  | PBool b => b
  | PInt z => negb (z =? 0)
  | PStr s => negb (String.eqb s "")
  | POther b => b
  end.

(** Exception classes that occur in the module.  Every class here derives
    from [Exception], which is what the handlers of the dispatcher are
    written against ([last_exc: Optional[Exception]]). *)
Inductive exn_class : Type :=
| ValueError
| RuntimeError
| FuturesTimeout          (* concurrent.futures.TimeoutError *)
| AsyncioTimeout          (* asyncio.TimeoutError *)
| OtherException (name : string).

Record exn : Type := mk_exn { exn_cls : exn_class; exn_msg : string }.

Definition is_FuturesTimeout (e : exn) : bool :=
  match exn_cls e with FuturesTimeout => true | _ => false end.

Definition is_AsyncioTimeout (e : exn) : bool :=
  match exn_cls e with AsyncioTimeout => true | _ => false end.

(** Outcome of running a piece of Python code: it returns, it raises, or it
    blocks forever. *)
Inductive result (A : Type) : Type :=
| Ok (a : A)
| Raise (e : exn)
| Hang.
Arguments Ok {A} a.
Arguments Raise {A} e.
Arguments Hang {A}.

(** ** The response of the agent *)

(** A content block is a dict; only membership of and lookup at ["text"]
    matter to the extractor. *)
Abbreviation block := (gmap string pyval).

(** [message] is the dict stored in [agent_response.message]; [content] is
    [None] when the key ["content"] is absent. *)
Record message : Type := mk_message { content : option (list block) }.

(** An agent response: its truth value and, when the attribute exists, its
    [message]. *)
Record response : Type := mk_response {
  resp_truth : bool;
  resp_message : option message
}.

(** The [for block in content_list] scan: the value under ["text"] of the
    first block that has the key, found or not. *)
Fixpoint scan_content (content_list : list block) : option pyval :=
  match content_list with
  | [] => None
  | blk :: rest =>
      match blk !! "text" with
      | Some v => Some v          (* final_response_text = block["text"]; break *)
      | None => scan_content rest
      end
  end.

Definition extraction_error : exn :=
  mk_exn ValueError "Could not extract 'message.content[0].text' from response.".

(** The value of [final_response_text] when the [if not ...] test is reached. *)
Definition final_response_text (agent_response : response) : pyval :=
  if resp_truth agent_response then
    match resp_message agent_response with
    | Some message_dict =>
        match content message_dict with
        | Some content_list =>
            match scan_content content_list with
            | Some v => v
            | None => PStr ""
            end
        | None => PStr ""
        end
    | None => PStr ""
    end
  else PStr "".

Definition _extract_final_text (agent_response : response) : result pyval :=
  let t := final_response_text agent_response in
  if negb (truthy t) then Raise extraction_error else Ok t.

(** [_call_agent_blocking] builds the agent and calls it; both are external.
    What the external agent does on one call: how long it takes ([None]: it
    never completes) and whether it returns a response or raises. *)
Inductive agent_outcome : Type :=
| AgentReturns (r : response)
| AgentRaises (e : exn).

Record execution : Type := mk_execution {
  duration : option Q;
  outcome : agent_outcome
}.

Definition _call_agent_blocking (x : execution) : result pyval :=
  match outcome x with
  | AgentRaises e => Raise e
  | AgentReturns agent_response => _extract_final_text agent_response
  end.

(** ** Settings *)

Record Settings : Type := mk_settings {
  model_id : option string;
  agent_max_retries : Z;
  agent_retry_backoff_base_sec : Q;
  agent_retry_backoff_max_sec : Q;
  agent_call_timeout_sec : Q
}.

Definition default_settings : Settings :=
  {| model_id := None;
     agent_max_retries := 2;
     agent_retry_backoff_base_sec := 1 # 2;
     agent_retry_backoff_max_sec := 5;
     agent_call_timeout_sec := 45 |}.

(** Python's two-argument [max] and [min] keep the first argument unless the
    second is strictly greater (smaller). *)
Definition py_max (a b : Q) : Q := if Qle_bool b a then a else b.
Definition py_min (a b : Q) : Q := if Qle_bool a b then a else b.

(** ** The store, the events and the monad *)

(** A [ThreadPoolExecutor] object.  Work that is queued or running inside the
    pool is not represented. *)
Record ThreadPoolExecutor : Type := mk_pool {
  max_workers : nat;
  thread_name_prefix : string;
  is_shutdown : bool
}.

(** [_executor] is the module global, a reference into [heap] or [None];
    [executed] counts the calls handed to a pool so far and [drawn] the calls
    of [random.random()]. *)
Record world : Type := mk_world {
  _executor : option nat;
  heap : gmap nat ThreadPoolExecutor;
  executed : nat;
  drawn : nat
}.

Definition initial_world : world := mk_world None ∅ 0 0.

Inductive log_level : Type := INFO | WARNING | ERROR.

Inductive log_record : Type :=
| MsgNotConfigured
| MsgStarting (is_async : bool) (chat_id : string)
| MsgComplete (is_async : bool) (chat_id : string)
| MsgTimedOut (timeout_s : Q) (attempt total : Z) (chat_id : string)
| MsgFailed (attempt total : Z) (chat_id : string) (e : exn)
| MsgGaveUp (is_async : bool) (chat_id : string) (last_exc : option exn).

Inductive event : Type :=
| Logged (lvl : log_level) (msg : log_record)
| PoolCreated (ref : nat) (workers : nat)
| Submitted (ref : nat) (chat_id input_text model : string)
| Waited (timeout : option Q)
| Slept (delay : Q)
| PoolShutdown (ref : nat) (wait cancel_futures : bool).

(** A computation maps a store to its outcome, the store it leaves and the
    events it emitted, oldest first. *)
Definition pyM (A : Type) : Type := world → result A * world * list event.

#[global] Instance pyM_ret : MRet pyM := λ A a w, (Ok a, w, []).

#[global] Instance pyM_bind : MBind pyM := λ A B f m w,
  match m w with
  | (Ok a, w1, ev1) => let '(r, w2, ev2) := f a w1 in (r, w2, ev1 ++ ev2)
  | (Raise e, w1, ev1) => (Raise e, w1, ev1)
  | (Hang, w1, ev1) => (Hang, w1, ev1)
  end.

Definition raise {A} (e : exn) : pyM A := λ w, (Raise e, w, []).
Definition hang {A} : pyM A := λ w, (Hang, w, []).
Definition emit (ev : event) : pyM unit := λ w, (Ok tt, w, [ev]).
Definition lift {A} (r : result A) : pyM A := λ w, (r, w, []).
Definition log (lvl : log_level) (msg : log_record) : pyM unit := emit (Logged lvl msg).

(** [try: m  except Exception as e: h e]. *)
Definition try_except {A} (m : pyM A) (h : exn → pyM A) : pyM A := λ w,
  match m w with
  | (Raise e, w1, ev1) => let '(r, w2, ev2) := h e w1 in (r, w2, ev1 ++ ev2)
  | other => other
  end.

(** A [for] loop whose body either falls through with the updated loop
    variables ([inl]) or executes [return] ([inr]). *)
Fixpoint for_each {X S R} (xs : list X) (body : X → S → pyM (S + R)) (s : S)
  : pyM (S + R) :=
  match xs with
  | [] => mret (inl s)
  | x :: rest =>
      r ← body x s;
      match r with
      | inl s' => for_each rest body s'
      | inr v => mret (inr v)
      end
  end.

(** [range(lo, hi)]. *)
Definition range (lo hi : Z) : list Z := seqZ lo (hi - lo).

(** *** The executor *)

Definition read_executor : pyM (option nat) := λ w, (Ok (_executor w), w, []).

Definition set_executor (g : option nat) : pyM unit := λ w,
  (Ok tt, mk_world g (heap w) (executed w) (drawn w), []).

(** [ThreadPoolExecutor(max_workers=n, thread_name_prefix=p)]: a new object. *)
Definition new_pool (n : nat) (p : string) : pyM nat := λ w,
  let ref := fresh (dom (heap w)) in
  (Ok ref,
   mk_world (_executor w) (<[ref := mk_pool n p false]> (heap w)) (executed w) (drawn w),
   [PoolCreated ref n]).

Definition _get_executor : pyM nat :=
  g ← read_executor;
  match g with
  | None => ref ← new_pool 4 "agent-worker"; set_executor (Some ref);; mret ref
  | Some ref => mret ref
  end.

(** [pool.shutdown(wait=..., cancel_futures=...)]. *)
Definition pool_shutdown (ref : nat) (wait cancel_futures : bool) : pyM unit := λ w,
  (Ok tt,
   mk_world (_executor w)
            (alter (λ p, mk_pool (max_workers p) (thread_name_prefix p) true) ref (heap w))
            (executed w) (drawn w),
   [PoolShutdown ref wait cancel_futures]).

Definition shutdown_executor (wait : bool) : pyM unit :=
  g ← read_executor;
  match g with
  | Some ref => pool_shutdown ref wait true;; set_executor None
  | None => mret tt
  end.

Definition pool_closed : exn :=
  mk_exn RuntimeError "cannot schedule new futures after shutdown".

(** ** The dispatcher *)

Section Dispatcher.

(** The process-wide [settings] object, what the agent does on its k-th
    call (numbered from 0, with the arguments of the call) and the k-th
    value of [random.random()]. *)
Variable settings : Settings.
Variable worker : nat → string → string → string → execution.
Variable rnd : nat → Q.

(** A future: the call it runs completes after [fut_duration], if ever,
    with [fut_outcome]. *)
Record future : Type := mk_future {
  fut_duration : option Q;
  fut_outcome : result pyval
}.

(** [executor.submit(_call_agent_blocking, chat_id, input_text, model_id)]. *)
Definition submit (ref : nat) (chat_id input_text model : string) : pyM future := λ w,
  match heap w !! ref with
  | Some pool =>
      if is_shutdown pool then (Raise pool_closed, w, [])
      else
        let x := worker (executed w) chat_id input_text model in
        (Ok (mk_future (duration x) (_call_agent_blocking x)),
         mk_world (_executor w) (heap w) (S (executed w)) (drawn w),
         [Submitted ref chat_id input_text model])
  | None => (Raise pool_closed, w, [])
  end.

(** Waiting for a future under a timeout ([None]: no timeout); [timed_out]
    is the exception of the waiting primitive. *)
Definition wait_future (timed_out : exn) (fut : future) (timeout : option Q)
  : pyM pyval :=
  emit (Waited timeout);;
  match timeout, fut_duration fut with
  | None, None => hang
  | None, Some _ => lift (fut_outcome fut)
  | Some t, None => raise timed_out
  | Some t, Some d => if Qle_bool d t then lift (fut_outcome fut) else raise timed_out
  end.

(** [fut.result(timeout=...)]. *)
Definition fut_result : future → option Q → pyM pyval :=
  wait_future (mk_exn FuturesTimeout "").

(** [asyncio.wait_for(loop.run_in_executor(...), timeout=...)]. *)
Definition wait_for : future → option Q → pyM pyval :=
  wait_future (mk_exn AsyncioTimeout "").

(** [time.sleep] refuses a negative length. *)
Definition time_sleep (delay : Q) : pyM unit :=
  if Qle_bool 0 delay then emit (Slept delay)
  else raise (mk_exn ValueError "sleep length must be non-negative").

(** [asyncio.sleep] only yields when the delay is not positive. *)
Definition asyncio_sleep (delay : Q) : pyM unit :=
  if Qle_bool delay 0 then mret tt else emit (Slept delay).

(** [random.uniform(a, b)] is [a + (b - a) * random()]. *)
Definition random_uniform (a b : Q) : pyM Q := λ w,
  (Ok (a + (b - a) * rnd (drawn w))%Q,
   mk_world (_executor w) (heap w) (executed w) (S (drawn w)),
   []).

(** The exponential part of the delay, before jitter. *)
Definition capped_delay (attempt : Z) : Q :=
  let base := agent_retry_backoff_base_sec settings in
  let maxb := agent_retry_backoff_max_sec settings in
  py_min maxb (base * inject_Z (2 ^ attempt))%Q.

Definition _compute_backoff_delay (attempt : Z) : pyM Q :=
  let delay := capped_delay attempt in
  jitter ← random_uniform 0 (delay * (2 # 10))%Q;
  mret (delay + jitter)%Q.

(** [not model_id]: [None] and the empty string are both falsy. *)
Definition configured (model : option string) : option string :=
  match model with
  | Some s => if String.eqb s "" then None else Some s
  | None => None
  end.

Definition max_retries : Z := Z.max 0 (agent_max_retries settings).
Definition timeout_s : Q := py_max 1 (agent_call_timeout_sec settings).

(** One iteration of the loop of [process_agent_request]. *)
Definition attempt_blocking (chat_id input_text model : string)
           (attempt : Z) (last_exc : option exn) : pyM (option exn + pyval) :=
  r ← try_except
        (executor ← _get_executor;
         fut ← submit executor chat_id input_text model;
         result ← fut_result fut (Some timeout_s);
         log INFO (MsgComplete false chat_id);;
         mret (inr result))
        (λ e,
           if is_FuturesTimeout e then
             log WARNING (MsgTimedOut timeout_s (attempt + 1) (max_retries + 1) chat_id);;
             mret (inl (Some e))
           else
             log WARNING (MsgFailed (attempt + 1) (max_retries + 1) chat_id e);;
             mret (inl (Some e)));
  match r with
  | inr result => mret (inr result)
  | inl last_exc' =>
      (if attempt <? max_retries then
         delay ← _compute_backoff_delay attempt;
         try_except (time_sleep delay) (λ _, mret tt)
       else mret tt);;
      mret (inl last_exc')
  end.

Definition process_agent_request (chat_id input_text : string) (model : option string)
  : pyM (option pyval) :=
  match configured model with
  | None => log ERROR MsgNotConfigured;; mret None
  | Some mid =>
      log INFO (MsgStarting false chat_id);;
      r ← for_each (range 0 (max_retries + 1))
                   (attempt_blocking chat_id input_text mid) None;
      match r with
      | inr result => mret (Some result)
      | inl last_exc =>
          log ERROR (MsgGaveUp false chat_id last_exc);;
          mret None
      end
  end.

(** One iteration of the loop of [process_agent_request_async]. *)
Definition attempt_async (chat_id input_text model : string)
           (attempt : Z) (last_exc : option exn) : pyM (option exn + pyval) :=
  r ← try_except
        (executor ← _get_executor;
         fut ← submit executor chat_id input_text model;
         result ← wait_for fut (Some timeout_s);
         log INFO (MsgComplete true chat_id);;
         mret (inr result))
        (λ e,
           if is_AsyncioTimeout e then
             log WARNING (MsgTimedOut timeout_s (attempt + 1) (max_retries + 1) chat_id);;
             mret (inl (Some e))
           else
             log WARNING (MsgFailed (attempt + 1) (max_retries + 1) chat_id e);;
             mret (inl (Some e)));
  match r with
  | inr result => mret (inr result)
  | inl last_exc' =>
      (if attempt <? max_retries then
         delay ← _compute_backoff_delay attempt;
         asyncio_sleep delay
       else mret tt);;
      mret (inl last_exc')
  end.

Definition process_agent_request_async (chat_id input_text : string)
           (model : option string) : pyM (option pyval) :=
  match configured model with
  | None => log ERROR MsgNotConfigured;; mret None
  | Some mid =>
      log INFO (MsgStarting true chat_id);;
      r ← for_each (range 0 (max_retries + 1))
                   (attempt_async chat_id input_text mid) None;
      match r with
      | inr result => mret (Some result)
      | inl last_exc =>
          log ERROR (MsgGaveUp true chat_id last_exc);;
          mret None
      end
  end.

End Dispatcher.

(** ** Observations on event traces *)

Definition is_submission (ev : event) : bool :=
  match ev with Submitted _ _ _ _ => true | _ => false end.

Definition is_sleep (ev : event) : bool :=
  match ev with Slept _ => true | _ => false end.

(** Number of events that [keep] selects. *)
Fixpoint count (keep : event → bool) (evs : list event) : nat :=
  match evs with
  | [] => 0%nat
  | ev :: rest => ((if keep ev then 1 else 0) + count keep rest)%nat
  end.

(** Number of worker executions handed to the pool. *)
Definition submissions (evs : list event) : nat := count is_submission evs.

Definition sleeps (evs : list event) : nat := count is_sleep evs.

(** The timeouts of the waits, in order. *)
Fixpoint wait_timeouts (evs : list event) : list (option Q) :=
  match evs with
  | [] => []
  | Waited t :: rest => t :: wait_timeouts rest
  | _ :: rest => wait_timeouts rest
  end.

(** ** Reference notions used by the statements *)

(** The scan as the specification words it: the first block carrying
    non-empty text, empty texts being skipped. *)
Fixpoint first_nonempty_text (content_list : list block) : option pyval :=
  match content_list with
  | [] => None
  | blk :: rest =>
      match blk !! "text" with
      | Some v => if truthy v then Some v else first_nonempty_text rest
      | None => first_nonempty_text rest
      end
  end.

Definition extract_first_nonempty (agent_response : response) : result pyval :=
  if resp_truth agent_response then
    match resp_message agent_response with
    | Some message_dict =>
        match content message_dict with
        | Some content_list =>
            match first_nonempty_text content_list with
            | Some v => Ok v
            | None => Raise extraction_error
            end
        | None => Raise extraction_error
        end
    | None => Raise extraction_error
    end
  else Raise extraction_error.

(** Block [i] is the first one of [blocks] with a ["text"] key, and holds [v]
    under it. *)
Definition first_text_block (blocks : list block) (i : nat) (v : pyval) : Prop :=
  (∃ blk, blocks !! i = Some blk ∧ blk !! "text" = Some v)
  ∧ ∀ j b, (j < i)%nat → blocks !! j = Some b → b !! "text" = None.

(** The global [_executor], when set, refers to a pool that accepts work. *)
Definition live (w : world) : bool :=
  match _executor w with
  | None => true
  | Some ref =>
      match heap w !! ref with
      | Some pool => negb (is_shutdown pool)
      | None => false
      end
  end.

(** A response whose message holds the given blocks, and a text block. *)
Definition response_of (blocks : list block) : response :=
  mk_response true (Some (mk_message (Some blocks))).

Definition text_block (s : string) : block := {[ "text" := PStr s ]}.

(** Result, final store and events of a run. *)
Definition result_of {A} (out : result A * world * list event) : result A := out.1.1.
Definition world_of {A} (out : result A * world * list event) : world := out.1.2.
Definition events_of {A} (out : result A * world * list event) : list event := out.2.

(** ** The loop the two entry points have in common

    The two entry points differ in the primitive that waits (and the timeout
    exception it raises), in the class their first handler tests for, in the
    wording of their log records and in how the backoff delay is spent.  The
    definitions below are the loop with these four left open; they are used
    to state and prove facts once for both. *)

Section SharedLoop.

Variable settings : Settings.
Variable worker : nat → string → string → string → execution.
Variable rnd : nat → Q.
Variable timed_out : exn.
Variable is_timeout : exn → bool.
Variable is_async : bool.
Variable pause : Q → pyM unit.

(** The body of the [try] block. *)
Definition call_with (chat_id input_text model : string) : pyM (option exn + pyval) :=
  executor ← _get_executor;
  fut ← submit worker executor chat_id input_text model;
  result ← wait_future timed_out fut (Some (timeout_s settings));
  log INFO (MsgComplete is_async chat_id);;
  mret (inr result).

(** The two [except] clauses. *)
Definition on_error (chat_id : string) (attempt : Z) (e : exn) : pyM (option exn + pyval) :=
  if is_timeout e then
    log WARNING (MsgTimedOut (timeout_s settings) (attempt + 1)
                             (max_retries settings + 1) chat_id);;
    mret (inl (Some e))
  else
    log WARNING (MsgFailed (attempt + 1) (max_retries settings + 1) chat_id e);;
    mret (inl (Some e)).

(** The [if attempt < max_retries] block. *)
Definition backoff_with (attempt : Z) : pyM unit :=
  if attempt <? max_retries settings then
    delay ← _compute_backoff_delay settings rnd attempt;
    pause delay
  else mret tt.

Definition attempt_with (chat_id input_text model : string)
           (attempt : Z) (last_exc : option exn) : pyM (option exn + pyval) :=
  r ← try_except (call_with chat_id input_text model) (on_error chat_id attempt);
  match r with
  | inr result => mret (inr result)
  | inl last_exc' => backoff_with attempt;; mret (inl last_exc')
  end.

Definition process_with (chat_id input_text : string) (model : option string)
  : pyM (option pyval) :=
  match configured model with
  | None => log ERROR MsgNotConfigured;; mret None
  | Some mid =>
      log INFO (MsgStarting is_async chat_id);;
      r ← for_each (range 0 (max_retries settings + 1))
                   (attempt_with chat_id input_text mid) None;
      match r with
      | inr result => mret (Some result)
      | inl last_exc =>
          log ERROR (MsgGaveUp is_async chat_id last_exc);;
          mret None
      end
  end.

End SharedLoop.

(** How each entry point spends a backoff delay. *)
Definition pause_blocking (delay : Q) : pyM unit :=
  try_except (time_sleep delay) (λ _, mret tt).

Definition pause_async (delay : Q) : pyM unit := asyncio_sleep delay.

(** ** Further observations on event traces *)

Definition is_log (ev : event) : bool :=
  match ev with Logged _ _ => true | _ => false end.

(** The events that [keep] selects. *)
Fixpoint observe (keep : event → bool) (evs : list event) : list event :=
  match evs with
  | [] => []
  | ev :: rest => if keep ev then ev :: observe keep rest else observe keep rest
  end.

(** Everything but the log records. *)
Definition not_log (ev : event) : bool := negb (is_log ev).

(** Everything but the log records and the sleeps. *)
Definition pool_effect (ev : event) : bool := negb (is_log ev) && negb (is_sleep ev).

(** A loop iteration of one run matches that of another: both return the
    same value, or both fall through. *)
Definition same_flow {S1 S2 R} (r1 : result (S1 + R)) (r2 : result (S2 + R)) : Prop :=
  match r1, r2 with
  | Ok (inr v1), Ok (inr v2) => v1 = v2
  | Ok (inl _), Ok (inl _) => True
  | Raise _, Raise _ => True
  | _, _ => False
  end.

(** Two runs agree on what [keep] selects: same final store, same selected
    events, matching results. *)
Definition similar {S1 S2 R} (keep : event → bool)
           (o1 : result (S1 + R) * world * list event)
           (o2 : result (S2 + R) * world * list event) : Prop :=
  world_of o1 = world_of o2
  ∧ observe keep (events_of o1) = observe keep (events_of o2)
  ∧ same_flow (result_of o1) (result_of o2).

(** Number of backoffs a failed attempt is followed by. *)
Definition backoffs_after (settings : Settings) (attempt : Z) : nat :=
  if attempt <? max_retries settings then 1%nat else 0%nat.

(** The agent's response cannot be extracted. *)
Definition extraction_fails (x : execution) : bool :=
  match outcome x with
  | AgentReturns r => negb (truthy (final_response_text r))
  | AgentRaises _ => false
  end.

(** The agent raises. *)
Definition agent_raises (x : execution) : bool :=
  match outcome x with
  | AgentReturns _ => false
  | AgentRaises _ => true
  end.

(** ** Sample inputs *)

(** A random source whose every draw is 1/2. *)
Definition half_draws : nat → Q := λ _, (1 # 2)%Q.

(** An agent that fails after one second on its first call, never completes
    its second call and answers "hello" after two seconds from then on. *)
Definition flaky_worker : nat → string → string → string → execution :=
  λ k _ _ _,
    match k with
    | O => mk_execution (Some 1%Q) (AgentRaises (mk_exn (OtherException "ClientError") "throttled"))
    | S O => mk_execution None (AgentReturns (response_of []))
    | _ => mk_execution (Some 2%Q) (AgentReturns (response_of [text_block "hello"]))
    end.

(** An agent whose every response starts with an empty text block. *)
Definition blank_worker : nat → string → string → string → execution :=
  λ _ _ _ _,
    mk_execution (Some 1%Q) (AgentReturns (response_of [text_block ""; text_block "hello"])).

(** An agent that always raises. *)
Definition failing_worker : nat → string → string → string → execution :=
  λ _ _ _ _,
    mk_execution (Some 1%Q) (AgentRaises (mk_exn (OtherException "ClientError") "throttled")).

(** The default settings with retries switched off. *)
Definition no_retry_settings : Settings :=
  {| model_id := None;
     agent_max_retries := 0;
     agent_retry_backoff_base_sec := 1 # 2;
     agent_retry_backoff_max_sec := 5;
     agent_call_timeout_sec := 45 |}.

(** ** What an attempt yields, and the pools of a store *)

(** The call completes within the timeout of the dispatcher. *)
Definition in_time (settings : Settings) (x : execution) : bool :=
  match duration x with
  | Some d => Qle_bool d (timeout_s settings)
  | None => false
  end.

(** The text an attempt obtains from the call [x], if any: the call must
    complete in time and [_call_agent_blocking] must return. *)
Definition attempt_yield (settings : Settings) (x : execution) : option pyval :=
  if in_time settings x then
    match _call_agent_blocking x with
    | Ok v => Some v
    | _ => None
    end
  else None.

(** The first of the [n] calls numbered from [k0] that yields a text, with
    its position. *)
Fixpoint first_success (settings : Settings)
         (worker : nat → string → string → string → execution)
         (chat_id input_text model : string) (k0 n : nat) : option (nat * pyval) :=
  match n with
  | O => None
  | S n' =>
      match attempt_yield settings (worker k0 chat_id input_text model) with
      | Some v => Some (O, v)
      | None =>
          match first_success settings worker chat_id input_text model (S k0) n' with
          | Some (i, v) => Some (S i, v)
          | None => None
          end
      end
  end.

(** The part of the store that holds the executor and the pools. *)
Definition pools_of (w : world) : option nat * gmap nat ThreadPoolExecutor :=
  (_executor w, heap w).

(** Every pool that accepts work is the one the global refers to (so at most
    one does), the global refers to such a pool when it is set, and every
    pool has four workers. *)
Definition pool_invariant (w : world) : Prop :=
  live w = true
  ∧ (∀ ref pool, heap w !! ref = Some pool → is_shutdown pool = false →
                 _executor w = Some ref)
  ∧ (∀ ref pool, heap w !! ref = Some pool → max_workers pool = 4%nat).

(** The stores the module can be in: the one at import, and those left by
    dispatcher calls (with any settings, agent and draws) and shutdowns. *)
Inductive reachable : world → Prop :=
| reach_initial : reachable initial_world
| reach_blocking settings worker rnd chat_id input_text model w :
    reachable w →
    reachable (world_of (process_agent_request settings worker rnd
                           chat_id input_text model w))
| reach_async settings worker rnd chat_id input_text model w :
    reachable w →
    reachable (world_of (process_agent_request_async settings worker rnd
                           chat_id input_text model w))
| reach_shutdown wait w :
    reachable w →
    reachable (world_of (shutdown_executor wait w)).

(** * The rest of the service *)

(** ** Python strings as code points *)

(** A Python [str] whose characters matter one by one: its code points. *)
Abbreviation pystr := (list N).

(** The code points of a string literal or of a header value (both hold
    characters below 256). *)
Definition codepoints (s : string) : pystr :=
  map N_of_ascii (list_ascii_of_string s).

(** Sequencing on outcomes. *)
Definition and_then {A B} (r : result A) (k : A → result B) : result B :=
  match r with
  | Ok a => k a
  | Raise e => Raise e
  | Hang => Hang
  end.

Definition index_error : exn :=
  mk_exn (OtherException "IndexError") "string index out of range".

(** [b[i]] for a non-negative index. *)
Definition str_index (b : pystr) (i : nat) : result N :=
  match b !! i with
  | Some c => Ok c
  | None => Raise index_error
  end.

(** ** The bearer-token check of [utils/auth.py] *)

(** The loop of [_secure_compare] for strings of different lengths; [i] is
    the index [enumerate] has reached and [acc] the value of [result]. *)
Fixpoint mix_unequal (a b : pystr) (i : nat) (acc : N) : result N :=
  match a with
  | [] => Ok acc
  | ch :: rest =>
      and_then (match b with
                | [] => Ok ch
                | _ :: _ =>
                    and_then (str_index b (i mod length b)) (λ y, Ok (N.lxor ch y))
                end)
               (λ t, mix_unequal rest b (S i) (N.lor acc t))
  end.

(** The loop over [zip(a, b)]. *)
Fixpoint mix_equal (pairs : list (N * N)) (acc : N) : N :=
  match pairs with
  | [] => acc
  | (x, y) :: rest => mix_equal rest (N.lor acc (N.lxor x y))
  end.

Definition _secure_compare (a b : pystr) : result bool :=
  if negb (length a =? length b)%nat then
    and_then (mix_unequal a b 0 0) (λ _, Ok false)
  else
    Ok (mix_equal (zip a b) 0 =? 0)%N.

(** [str.lower()] on a character below 256: the ASCII capitals and the
    Latin-1 capitals (192 to 222, the multiplication sign apart) move up by
    32. *)
Definition lower_char (c : ascii) : ascii :=
  let n := nat_of_ascii c in
  if ((65 <=? n) && (n <=? 90))%nat
     || ((192 <=? n) && (n <=? 222) && negb (n =? 215))%nat
  then ascii_of_nat (n + 32)
  else c.

Fixpoint lower (s : string) : string :=
  match s with
  | EmptyString => EmptyString
  | String c rest => String (lower_char c) (lower rest)
  end.

Record HTTPAuthorizationCredentials : Type := mk_credentials {
  scheme : string;
  credentials : string
}.

Record HTTPException : Type := mk_http_exception {
  status_code : nat;
  detail : string;
  headers : list (string * string)
}.

(** What the dependency decides when it returns or raises an
    [HTTPException]. *)
Inductive verdict : Type :=
| Proceeds
| Rejected (e : HTTPException).

(** [x or ""] on a string. *)
Definition or_empty (s : string) : string := if String.eqb s "" then "" else s.

(** [get_bearer_auth_dependency(env_var, skip_paths=...)] reads the token
    from the environment once and returns the dependency, a function of the
    request path and of the credentials [HTTPBearer(auto_error=False)]
    extracted ([None] when there are none). *)
Definition get_bearer_auth_dependency
           (environ : gmap string pystr) (env_var : string)
           (skip_paths : option (gset string))
  : string → option HTTPAuthorizationCredentials → result verdict :=
  let expected_token := environ !! env_var in
  let skip_paths : gset string :=
    match skip_paths with
    | Some s => if decide (s = ∅) then ∅ else s      (* skip_paths or set() *)
    | None => ∅
    end in
  λ path creds,
    if decide (path ∈ skip_paths) then Ok Proceeds
    else
      match expected_token with
      | None | Some [] =>
          Ok (Rejected (mk_http_exception 500
                          ("Server misconfiguration: " ++ env_var ++ " is not set.") []))
      | Some (c :: token) =>
          match creds with
          | None =>
              Ok (Rejected (mk_http_exception 401 "Not authenticated"
                              [("WWW-Authenticate", "Bearer")]))
          | Some cr =>
              if negb (String.eqb (lower (scheme cr)) "bearer") then
                Ok (Rejected (mk_http_exception 401 "Not authenticated"
                                [("WWW-Authenticate", "Bearer")]))
              else
                let provided := or_empty (credentials cr) in
                and_then (_secure_compare (codepoints provided) (c :: token))
                         (λ same,
                            if negb same then
                              Ok (Rejected (mk_http_exception 401
                                              "Invalid authentication credentials"
                                              [("WWW-Authenticate", "Bearer")]))
                            else Ok Proceeds)
          end
      end.

(** The dependency [main.py] installs: the token is [API_TOKEN] and
    [/health] is exempt. *)
Definition _token_auth (environ : gmap string pystr)
  : string → option HTTPAuthorizationCredentials → result verdict :=
  get_bearer_auth_dependency environ "API_TOKEN" (Some {[ "/health" ]}).

Definition unauthorized (d : string) : HTTPException :=
  mk_http_exception 401 d [("WWW-Authenticate", "Bearer")].

(** ** [Settings.parse_csv] and the CORS origins of [config/settings.py] *)

(** [str.isspace()] for one character: the code points [str.strip()]
    removes. *)
Definition is_space (c : N) : bool :=
  ((9 <=? c) && (c <=? 13) || (28 <=? c) && (c <=? 32) || (c =? 133) || (c =? 160)
   || (c =? 5760) || (8192 <=? c) && (c <=? 8202) || (c =? 8232) || (c =? 8233)
   || (c =? 8239) || (c =? 8287) || (c =? 12288))%N.

Fixpoint lstrip (s : pystr) : pystr :=
  match s with
  | [] => []
  | c :: rest => if is_space c then lstrip rest else s
  end.

Definition rstrip (s : pystr) : pystr := reverse (lstrip (reverse s)).

(** [s.strip()]. *)
Definition strip (s : pystr) : pystr := rstrip (lstrip s).

(** [s.split(sep)] for a one-character separator: always at least one
    piece. *)
Fixpoint split_on (sep : N) (s : pystr) : list pystr :=
  match s with
  | [] => [[]]
  | c :: rest =>
      if (c =? sep)%N then [] :: split_on sep rest
      else
        match split_on sep rest with
        | piece :: pieces => (c :: piece) :: pieces
        | [] => [[c]]
        end
  end.

(** [sep.join(items)]. *)
Fixpoint join (sep : N) (items : list pystr) : pystr :=
  match items with
  | [] => []
  | [x] => x
  | x :: rest => x ++ sep :: join sep rest
  end.

Definition comma : N := 44%N.

Definition nonempty (s : pystr) : bool :=
  match s with [] => false | _ :: _ => true end.

Definition parse_csv (value : option pystr) : list pystr :=
  match value with
  | None | Some [] => []                        (* if not value: return [] *)
  | Some s =>
      map strip (List.filter (λ x, nonempty (strip x)) (split_on comma s))
  end.

(** The module-level normalisation of [settings.cors_allow_origins]: a raw
    string becomes the list of its items. *)
Definition normalized_cors_allow_origins (raw : option pystr) : option (list pystr) :=
  match raw with
  | Some s => Some (parse_csv (Some s))
  | None => None
  end.

(** [if settings.cors_allow_origins:] in [main.py]: the CORS middleware is
    added, with these origins. *)
Definition cors_middleware (raw : option pystr) : option (list pystr) :=
  match normalized_cors_allow_origins raw with
  | Some (origin :: origins) => Some (origin :: origins)
  | _ => None
  end.

(** ** The password tool of [tools/gerador_senhas.py] *)

(** The characters with codes [first] to [first + count - 1]. *)
Definition char_range (first count : nat) : pystr := map N.of_nat (seq first count).

(** [string.ascii_letters], [string.digits] and [string.punctuation]. *)
Definition ascii_letters : pystr := char_range 97 26 ++ char_range 65 26.
Definition digits : pystr := char_range 48 10.
Definition punctuation : pystr :=
  char_range 33 15 ++ char_range 58 7 ++ char_range 91 6 ++ char_range 123 4.

(** Running [f] on each element in turn, stopping at the first that raises. *)
Fixpoint for_all {A B} (f : A → result B) (xs : list A) : result (list B) :=
  match xs with
  | [] => Ok []
  | x :: rest =>
      and_then (f x) (λ y, and_then (for_all f rest) (λ ys, Ok (y :: ys)))
  end.

(** [random.choice(seq)] is [seq[randbelow(len(seq))]]; [randbelow k n] is
    the value the generator gives on its [k]-th use, below [n]. *)
Definition random_choice (randbelow : nat → nat → nat) (k : nat) (chars : pystr)
  : result N :=
  str_index chars (randbelow k (length chars)).

Definition gerador_de_senhas (randbelow : nat → nat → nat)
           (tamanho : Z) (incluir_numeros incluir_simbolos : bool) : result pystr :=
  if negb ((8 <=? tamanho) && (tamanho <=? 128)) then
    Ok (codepoints "Erro: O tamanho da senha deve ser entre 8 e 128 caracteres.")
  else
    let caracteres := ascii_letters in
    let caracteres := if incluir_numeros then caracteres ++ digits else caracteres in
    let caracteres := if incluir_simbolos then caracteres ++ punctuation else caracteres in
    and_then (for_all (λ i, random_choice randbelow i caracteres)
                      (seq 0 (Z.to_nat tamanho)))
             (λ senha, Ok (codepoints "Senha gerada com sucesso: " ++ senha)).

Definition is_letter (c : N) : bool :=
  ((65 <=? c) && (c <=? 90) || (97 <=? c) && (c <=? 122))%N.

Definition is_digit (c : N) : bool := ((48 <=? c) && (c <=? 57))%N.

Definition is_punctuation (c : N) : bool :=
  ((33 <=? c) && (c <=? 47) || (58 <=? c) && (c <=? 64)
   || (91 <=? c) && (c <=? 96) || (123 <=? c) && (c <=? 126))%N.

(** ** The middlewares of [utils/request_id.py] and [utils/access_log.py] *)

(** Headers as Starlette keeps them: the list of (name, value) pairs in
    order, names in lower case. *)
Abbreviation header_list := (list (string * string)).

(** [headers.get(key)]: the value of the first header of that name. *)
Fixpoint headers_get (key : string) (hs : header_list) : option string :=
  match hs with
  | [] => None
  | (name, value) :: rest =>
      if String.eqb name (lower key) then Some value else headers_get key rest
  end.

(** The headers of other names, in order. *)
Fixpoint headers_without (key : string) (hs : header_list) : header_list :=
  match hs with
  | [] => []
  | (name, value) :: rest =>
      if String.eqb name (lower key) then headers_without key rest
      else (name, value) :: headers_without key rest
  end.

(** [headers[key] = value] on mutable headers: the first header of that name
    is replaced and the later ones are deleted; without one the header is
    appended. *)
Fixpoint headers_set (key value : string) (hs : header_list) : header_list :=
  match hs with
  | [] => [(lower key, value)]
  | (name, v) :: rest =>
      if String.eqb name (lower key) then (lower key, value) :: headers_without key rest
      else (name, v) :: headers_set key value rest
  end.

Record Request : Type := mk_request {
  method : string;
  url_path : string;
  request_headers : header_list;
  client_host : option string          (* request.client.host, without a client None *)
}.

Record Response : Type := mk_http_response {
  response_status : nat;
  response_headers : header_list;
  response_body : string
}.

(** [x or y] on strings, [x] possibly missing. *)
Definition or_else (x : option string) (y : string) : string :=
  match x with
  | Some s => if String.eqb s "" then y else s
  | None => y
  end.

(** [RequestIdMiddleware.dispatch]; [uuid] is what [str(uuid.uuid4())] gives
    when it is called. *)
Definition request_id_dispatch (uuid : string)
           (call_next : Request → result Response) (request : Request) : result Response :=
  let rid := or_else (headers_get "x-request-id" (request_headers request)) uuid in
  and_then (call_next request)
           (λ response,
              Ok (mk_http_response (response_status response)
                    (headers_set "x-request-id" rid (response_headers response))
                    (response_body response))).

(** The fields of the access log line; [status] is [None] where the line
    shows "-". *)
Record access_log : Type := mk_access_log {
  log_method : string;
  log_path : string;
  log_status : option nat;
  log_duration_ms : Q;
  log_client_ip : string;
  log_request_id : string
}.

(** [AccessLogMiddleware.dispatch]; [duration_ms] is the rounded time the
    clock measures.  It gives the outcome and the lines logged. *)
Definition access_log_dispatch (duration_ms : Q)
           (call_next : Request → result Response) (request : Request)
  : result Response * list access_log :=
  let client_ip := match client_host request with Some h => h | None => "-" end in
  let rid := headers_get "x-request-id" (request_headers request) in
  let line status :=
    mk_access_log (method request) (url_path request) status duration_ms client_ip
                  (or_else rid "-") in
  match call_next request with
  | Ok response => (Ok response, [line (Some (response_status response))])
  | Raise e => (Raise e, [line None])          (* finally: runs, the exception goes on *)
  | Hang => (Hang, [])
  end.

(** The two middlewares as [main.py] stacks them: the access log, added
    last, is the outer one. *)
Definition middleware_stack (uuid : string) (duration_ms : Q)
           (app : Request → result Response) (request : Request)
  : result Response * list access_log :=
  access_log_dispatch duration_ms (request_id_dispatch uuid app) request.

(** ** The routes of [api/routes.py] *)

(** The request body of both routes; [schemas/requests.py] declares it, the
    routes read these two fields. *)
Record ChatRequest : Type := mk_chat_request {
  request_chat_id : string;
  request_input : string
}.

Record AckResponse : Type := mk_ack { ack_status : string; ack_message : string }.

Record ChatTextResponse : Type := mk_chat_text { text : option string }.

Definition validation_error : exn :=
  mk_exn (OtherException "ValidationError") "text: Input should be a valid string".

(** [ChatTextResponse(text=response)]: the field is declared [str | None],
    and pydantic (version 2) refuses any other value. *)
Definition ChatTextResponse_of (response : option pyval) : result ChatTextResponse :=
  match response with
  | None => Ok (mk_chat_text None)
  | Some (PStr s) => Ok (mk_chat_text (Some s))
  | Some _ => Raise validation_error
  end.

(** [POST /chat]. *)
Definition handle_chat (settings : Settings)
           (worker : nat → string → string → string → execution) (rnd : nat → Q)
           (request : ChatRequest) : pyM ChatTextResponse :=
  response ← process_agent_request_async settings worker rnd
               (request_chat_id request) (request_input request) (model_id settings);
  lift (ChatTextResponse_of response).

(** [POST /agent]: the call is added to the background tasks of the request
    and the acknowledgement is returned. *)
Definition handle_request (settings : Settings)
           (worker : nat → string → string → string → execution) (rnd : nat → Q)
           (request : ChatRequest) (background_tasks : list (pyM (option pyval)))
  : AckResponse * list (pyM (option pyval)) :=
  (mk_ack "received" "Request received. Processing will be done in the background.",
   background_tasks
     ++ [process_agent_request settings worker rnd
           (request_chat_id request) (request_input request) (model_id settings)]).

(** The framework runs the background tasks in order once the response is
    sent; what a task returns is dropped. *)
Fixpoint run_background_tasks {A} (tasks : list (pyM A)) : pyM unit :=
  match tasks with
  | [] => mret tt
  | task :: rest => task;; run_background_tasks rest
  end.

(** Every text the agent's responses can yield is a string. *)
Definition texts_are_strings (worker : nat → string → string → string → execution) : Prop :=
  ∀ k c i m v, _call_agent_blocking (worker k c i m) = Ok v → ∃ s, v = PStr s.

(** ** The lifespan of [main.py] *)

(** The application logs besides the dispatcher: its events are those of
    the dispatcher and its own log lines. *)
Inductive app_event : Type :=
| Core (ev : event)
| AppLogged (lvl : log_level) (line : string).

Definition appM (A : Type) : Type := world → result A * world * list app_event.

#[global] Instance appM_ret : MRet appM := λ A a w, (Ok a, w, []).

#[global] Instance appM_bind : MBind appM := λ A B f m w,
  match m w with
  | (Ok a, w1, ev1) => let '(r, w2, ev2) := f a w1 in (r, w2, ev1 ++ ev2)
  | (Raise e, w1, ev1) => (Raise e, w1, ev1)
  | (Hang, w1, ev1) => (Hang, w1, ev1)
  end.

(** A computation of the dispatcher inside the application. *)
Definition core {A} (m : pyM A) : appM A := λ w,
  let '(r, w', evs) := m w in (r, w', map Core evs).

Definition app_log (lvl : log_level) (line : string) : appM unit := λ w,
  (Ok tt, w, [AppLogged lvl line]).

(** [try: m  except Exception as e: h e] in the application. *)
Definition app_try_except {A} (m : appM A) (h : exn → appM A) : appM A := λ w,
  match m w with
  | (Raise e, w1, ev1) => let '(r, w2, ev2) := h e w1 in (r, w2, ev1 ++ ev2)
  | other => other
  end.

(** [try: m  finally: f]: [f] runs whether [m] returns or raises, and what
    [m] raised goes on unless [f] raises itself. *)
Definition app_try_finally {A} (m : appM A) (f : appM unit) : appM A := λ w,
  match m w with
  | (Hang, w1, ev1) => (Hang, w1, ev1)
  | (r, w1, ev1) =>
      match f w1 with
      | (Ok _, w2, ev2) => (r, w2, ev1 ++ ev2)
      | (Raise e, w2, ev2) => (Raise e, w2, ev1 ++ ev2)
      | (Hang, w2, ev2) => (Hang, w2, ev1 ++ ev2)
      end
  end.

(** [lifespan(app)] around [serve], what the application does between
    startup and shutdown. *)
Definition lifespan (settings : Settings) (serve : appM unit) : appM unit :=
  (match configured (model_id settings) with
   | None => app_log ERROR "MODEL_ID is not configured. Set env var MODEL_ID or config settings."
   | Some _ => mret tt
   end);;
  app_log INFO "Application startup complete";;
  app_try_finally serve
    (app_try_except
       (core (shutdown_executor true);;
        app_log INFO "Background executor shutdown complete")
       (λ e, app_log WARNING ("Error shutting down executor: " ++ exn_msg e));;
     app_log INFO "Application shutdown complete").

Definition app_result_of {A} (out : result A * world * list app_event) : result A := out.1.1.
Definition app_world_of {A} (out : result A * world * list app_event) : world := out.1.2.
Definition app_events_of {A} (out : result A * world * list app_event) : list app_event :=
  out.2.

(** ** The file name of [utils/output_handler.py] *)

(** [c.isalnum() or c in ("-", "_")]; [isalnum] is Python's test on a code
    point, a table of the Unicode database. *)
Definition keeps_char (isalnum : N → bool) (c : N) : bool :=
  isalnum c || (c =? 45)%N || (c =? 95)%N.

(** The sanitised chat id of [save_to_temp_file]. *)
Definition safe_chat_id (isalnum : N → bool) (chat_id : pystr) : pystr :=
  let kept := rstrip (List.filter (keeps_char isalnum) chat_id) in
  match kept with
  | [] => codepoints "invalid_chat_id"
  | _ => kept
  end.

(** [os.path.join(a, b)] of [posixpath]: [b] alone when it starts with the
    separator, no separator added after an empty [a] or one that ends with
    it. *)
Definition startswith_sep (s : pystr) : bool :=
  match head s with Some c => (c =? 47)%N | None => false end.

Definition endswith_sep (s : pystr) : bool :=
  match last s with Some c => (c =? 47)%N | None => false end.

Definition path_join (a b : pystr) : pystr :=
  if startswith_sep b then b
  else if bool_decide (a = []) || endswith_sep a then a ++ b
  else a ++ [47%N] ++ b.

(** The path [save_to_temp_file] appends to. *)
Definition log_file_path (isalnum : N → bool) (chat_id : pystr) : pystr :=
  path_join (codepoints "tmp") (safe_chat_id isalnum chat_id ++ codepoints ".txt").

(** [isalnum] on the ASCII range, a sample table. *)
Definition ascii_isalnum (c : N) : bool :=
  ((48 <=? c) && (c <=? 57) || (65 <=? c) && (c <=? 90) || (97 <=? c) && (c <=? 122))%N.

(** * Properties *)

(** ** The result extractor *)

Example extract_hello :
  _extract_final_text (response_of [text_block "hello"]) = Ok (PStr "hello").
Proof. vm_compute. reflexivity. Qed.

Example extract_skips_blocks_without_text :
  _extract_final_text (response_of [ {[ "toolUse" := POther true ]}; text_block "hi" ])
  = Ok (PStr "hi").
Proof. vm_compute. reflexivity. Qed.

Lemma scan_content_first (blocks : list block) (v : pyval) :
  scan_content blocks = Some v ↔ ∃ i, first_text_block blocks i v.
Proof.
  induction blocks as [|blk rest IH]; simpl.
  - split; [discriminate|]. intros (i & (b & Hb & _) & _). discriminate.
  - destruct (blk !! "text") as [t|] eqn:Ht.
    + split.
      * intros [= <-]. exists 0%nat. split; [exists blk; auto | intros j b Hj; lia].
      * intros (i & (b & Hb & Hv) & Hfirst). destruct i as [|i].
        -- simpl in Hb. injection Hb as <-. congruence.
        -- specialize (Hfirst 0%nat blk ltac:(lia) eq_refl). congruence.
    + rewrite IH. split.
      * intros (i & (b & Hb & Hv) & Hfirst). exists (S i). split; [exists b; auto|].
        intros [|j] b' Hj Hb'; simpl in Hb'; [congruence|]. eapply Hfirst; [|eassumption]. lia.
      * intros (i & (b & Hb & Hv) & Hfirst). destruct i as [|i].
        -- simpl in Hb. injection Hb as <-. congruence.
        -- exists i. split; [exists b; auto|]. intros j b' Hj Hb'.
           apply (Hfirst (S j) b'); [lia | exact Hb'].
Qed.

(** C2, as the code has it: the extractor returns the value under ["text"] of
    the first block that has a ["text"] key, provided that value is non-empty
    (truthy); in every other case (falsy response, no [message], no
    ["content"], no block with the key, or an empty first text) it raises the
    extraction error.  It never skips an empty text to look further. *)
Theorem C2_extract_first_text_block (r : response) :
  (∀ v, _extract_final_text r = Ok v ↔
        resp_truth r = true ∧ truthy v = true ∧
        ∃ m blocks i, resp_message r = Some m ∧ content m = Some blocks
                      ∧ first_text_block blocks i v)
  ∧ ((∃ v, _extract_final_text r = Ok v) ∨ _extract_final_text r = Raise extraction_error).
Proof.
  split.
  - intros v. unfold _extract_final_text, final_response_text.
    destruct r as [tr [[[blocks|]]|]]; simpl; destruct tr; simpl;
      try (split; [discriminate | intros (H1 & H2 & m & bs & i & H3 & H4 & H5);
                                   simplify_eq/=]).
    destruct (scan_content blocks) as [t|] eqn:Hscan; simpl.
    + destruct (truthy t) eqn:Ht; simpl.
      * split.
        -- intros [= <-]. repeat split; auto.
           apply scan_content_first in Hscan as [i Hi]. eauto 10.
        -- intros (_ & _ & m & bs & i & Hm & Hc & Hi). simplify_eq/=.
           assert (scan_content bs = Some v) as E by (apply scan_content_first; eauto).
           congruence.
      * split; [discriminate|].
        intros (_ & Hv & m & bs & i & Hm & Hc & Hi). simplify_eq/=.
        assert (scan_content bs = Some v) as E by (apply scan_content_first; eauto).
        congruence.
    + split; [discriminate|].
      intros (_ & Hv & m & bs & i & Hm & Hc & Hi). simplify_eq/=.
      assert (scan_content bs = Some v) as E by (apply scan_content_first; eauto).
      congruence.
  - unfold _extract_final_text. destruct (truthy _); simpl; eauto.
Qed.

(** C2 fails as stated: with an empty first text block and a later block
    holding "hello", a scan for the first non-empty text yields "hello", but
    the extractor stops at the empty first text and raises. *)
Lemma C2_counterexample :
  extract_first_nonempty (response_of [text_block ""; text_block "hello"]) = Ok (PStr "hello")
  ∧ _extract_final_text (response_of [text_block ""; text_block "hello"])
    = Raise extraction_error.
Proof. split; vm_compute; reflexivity. Qed.

(** ** Python's [min] and [max] on rationals *)

Lemma Qle_bool_false (a b : Q) : Qle_bool a b = false → (b < a)%Q.
Proof.
  intros E. assert (~ (a <= b)%Q) as N by (rewrite <- Qle_bool_iff; congruence).
  lra.
Qed.

Lemma py_min_cases (a b : Q) :
  ((a <= b)%Q ∧ py_min a b = a) ∨ ((b < a)%Q ∧ py_min a b = b).
Proof.
  unfold py_min. destruct (Qle_bool a b) eqn:E.
  - left. split; [apply Qle_bool_iff; exact E | reflexivity].
  - right. split; [apply Qle_bool_false; exact E | reflexivity].
Qed.

Lemma py_max_cases (a b : Q) :
  ((b <= a)%Q ∧ py_max a b = a) ∨ ((a < b)%Q ∧ py_max a b = b).
Proof.
  unfold py_max. destruct (Qle_bool b a) eqn:E.
  - left. split; [apply Qle_bool_iff; exact E | reflexivity].
  - right. split; [apply Qle_bool_false; exact E | reflexivity].
Qed.

Lemma py_min_Qmin (a b : Q) : (py_min a b == Qmin a b)%Q.
Proof.
  destruct (py_min_cases a b) as [[H ->]|[H ->]]; symmetry.
  - apply Q.min_l. exact H.
  - apply Q.min_r. lra.
Qed.

Lemma py_max_Qmax (a b : Q) : (py_max a b == Qmax a b)%Q.
Proof.
  destruct (py_max_cases a b) as [[H ->]|[H ->]]; symmetry.
  - apply Q.max_l. exact H.
  - apply Q.max_r. lra.
Qed.

(** ** The backoff policy *)

Lemma compute_backoff_delay_run settings rnd attempt w :
  _compute_backoff_delay settings rnd attempt w
  = (Ok (capped_delay settings attempt
         + (0 + (capped_delay settings attempt * (2 # 10) - 0) * rnd (drawn w)))%Q,
     mk_world (_executor w) (heap w) (executed w) (S (drawn w)),
     []).
Proof. reflexivity. Qed.

Lemma pow2_pos (attempt : Z) : 0 ≤ attempt → (0 < inject_Z (2 ^ attempt))%Q.
Proof.
  intros H. replace 0%Q with (inject_Z 0) by reflexivity.
  rewrite <- Zlt_Qlt. apply Z.pow_pos_nonneg; lia.
Qed.

Lemma capped_delay_nonneg settings attempt :
  0 ≤ attempt →
  (0 <= agent_retry_backoff_base_sec settings)%Q →
  (0 <= agent_retry_backoff_max_sec settings)%Q →
  (0 <= capped_delay settings attempt)%Q.
Proof.
  intros Ha Hb Hm. unfold capped_delay.
  pose proof (pow2_pos attempt Ha) as Hp.
  assert (0 <= agent_retry_backoff_base_sec settings * inject_Z (2 ^ attempt))%Q as Hprod
    by (apply Qmult_le_0_compat; lra).
  destruct (py_min_cases (agent_retry_backoff_max_sec settings)
              (agent_retry_backoff_base_sec settings * inject_Z (2 ^ attempt)))
    as [[_ ->]|[_ ->]]; assumption.
Qed.

Lemma jittered_bounds (c u : Q) :
  (0 <= c)%Q → (0 <= u <= 1)%Q →
  (c <= c + (0 + (c * (2 # 10) - 0) * u))%Q
  ∧ (c + (0 + (c * (2 # 10) - 0) * u) <= (12 # 10) * c)%Q.
Proof.
  intros Hc [Hu0 Hu1].
  assert (0 <= c * u)%Q as Hcu by (apply Qmult_le_0_compat; assumption).
  assert (0 <= c * (1 - u))%Q as Hcu1 by (apply Qmult_le_0_compat; lra).
  split; nra.
Qed.




(** ** The executor and its shutdown *)

Ltac unfold_monad :=
  unfold read_executor, new_pool, set_executor, pool_shutdown, log, emit, raise, hang,
    lift, mbind, pyM_bind, mret, pyM_ret.

Lemma get_executor_run (w : world) :
  _get_executor w =
  match _executor w with
  | Some ref => (Ok ref, w, [])
  | None =>
      let ref := fresh (dom (heap w)) in
      (Ok ref,
       mk_world (Some ref) (<[ref := mk_pool 4 "agent-worker" false]> (heap w))
                (executed w) (drawn w),
       [PoolCreated ref 4])
  end.
Proof. unfold _get_executor. unfold_monad. destruct (_executor w); reflexivity. Qed.

Lemma shutdown_executor_run (wait : bool) (w : world) :
  shutdown_executor wait w =
  match _executor w with
  | Some ref =>
      (Ok tt,
       mk_world None
                (alter (λ p, mk_pool (max_workers p) (thread_name_prefix p) true) ref (heap w))
                (executed w) (drawn w),
       [PoolShutdown ref wait true])
  | None => (Ok tt, w, [])
  end.
Proof. unfold shutdown_executor. unfold_monad. destruct (_executor w); reflexivity. Qed.

Lemma live_initial : live initial_world = true.
Proof. reflexivity. Qed.

Lemma live_shutdown_executor (wait : bool) (w : world) :
  live (world_of (shutdown_executor wait w)) = true.
Proof.
  rewrite shutdown_executor_run. destruct (_executor w) eqn:E; [reflexivity|].
  unfold live, world_of. simpl. rewrite E. reflexivity.
Qed.

Lemma shutdown_clears_global (wait : bool) (w : world) :
  _executor (world_of (shutdown_executor wait w)) = None.
Proof.
  rewrite shutdown_executor_run. destruct (_executor w) eqn:E; [reflexivity | exact E].
Qed.

Lemma fresh_ref_unused (h : gmap nat ThreadPoolExecutor) : h !! fresh (dom h) = None.
Proof. apply not_elem_of_dom. apply is_fresh. Qed.

Lemma live_get_executor (w : world) :
  live w = true →
  ∃ ref w0 evs pool,
    _get_executor w = (Ok ref, w0, evs)
    ∧ _executor w0 = Some ref ∧ heap w0 !! ref = Some pool ∧ is_shutdown pool = false.
Proof.
  intros Hlive. rewrite get_executor_run. unfold live in Hlive.
  destruct (_executor w) as [ref|] eqn:Hex.
  - destruct (heap w !! ref) as [pool|] eqn:Hp; [|discriminate].
    exists ref, w, [], pool. repeat split; auto.
    destruct (is_shutdown pool); [discriminate | reflexivity].
  - cbv zeta. do 4 eexists. split; [reflexivity|]. simpl.
    split; [reflexivity|]. split; [apply lookup_insert_eq | reflexivity].
Qed.

(** C9: shutting the executor down twice in succession raises nothing, and
    the second call changes nothing and shuts no pool down: it leaves the
    store of the first call and emits no event. *)
Theorem C9_shutdown_idempotent (wait1 wait2 : bool) (w : world) :
  let once := shutdown_executor wait1 w in
  let twice := (shutdown_executor wait1;; shutdown_executor wait2) w in
  result_of once = Ok tt
  ∧ shutdown_executor wait2 (world_of once) = (Ok tt, world_of once, [])
  ∧ result_of twice = Ok tt
  ∧ world_of twice = world_of once
  ∧ events_of twice = events_of once.
Proof.
  cbv zeta. unfold mbind, pyM_bind. rewrite (shutdown_executor_run wait1 w).
  destruct (_executor w) as [ref|] eqn:E; unfold result_of, world_of, events_of; simpl.
  - rewrite shutdown_executor_run. simpl. repeat split; reflexivity.
  - rewrite shutdown_executor_run, E. repeat split; reflexivity.
Qed.

(** C3, as the code has it: [shutdown_executor] shuts the current pool down
    and clears the global, so the next submission through [_get_executor]
    creates a fresh four-worker pool and is accepted by it.  Only a submission
    to the retired pool object itself is refused, with the pool's
    [RuntimeError]. *)
Theorem C3_submit_after_shutdown_recreates_pool
        (worker : nat → string → string → string → execution)
        (wait : bool) (chat_id input_text model : string) (w : world) :
  let w1 := world_of (shutdown_executor wait w) in
  let next := (executor ← _get_executor; submit worker executor chat_id input_text model) w1 in
  _executor w1 = None
  ∧ (∃ fut ref,
        result_of next = Ok fut
        ∧ events_of next = [PoolCreated ref 4; Submitted ref chat_id input_text model]
        ∧ heap w1 !! ref = None
        ∧ _executor (world_of next) = Some ref
        ∧ heap (world_of next) !! ref = Some (mk_pool 4 "agent-worker" false))
  ∧ (∀ old, _executor w = Some old →
            result_of (submit worker old chat_id input_text model w1) = Raise pool_closed).
Proof.
  cbv zeta. pose proof (shutdown_clears_global wait w) as Hnone.
  set (w1 := world_of (shutdown_executor wait w)) in *.
  split; [exact Hnone|]. split.
  - unfold mbind, pyM_bind. rewrite get_executor_run, Hnone. cbv zeta.
    unfold submit. simpl. rewrite lookup_insert_eq. simpl.
    do 2 eexists. split; [reflexivity|]. split; [reflexivity|].
    split; [apply fresh_ref_unused|]. split; [reflexivity | apply lookup_insert_eq].
  - intros old Hold. subst w1. rewrite shutdown_executor_run, Hold.
    unfold submit, world_of, result_of. simpl.
    rewrite lookup_alter. destruct (decide (old = old)) as [_|N]; [|congruence].
    destruct (heap w !! old); reflexivity.
Qed.

(** ** Event traces *)

Lemma count_app (keep : event → bool) (ev1 ev2 : list event) :
  count keep (ev1 ++ ev2) = (count keep ev1 + count keep ev2)%nat.
Proof. induction ev1 as [|ev rest IH]; simpl; [reflexivity | rewrite IH; lia]. Qed.

Lemma submissions_app (ev1 ev2 : list event) :
  submissions (ev1 ++ ev2) = (submissions ev1 + submissions ev2)%nat.
Proof. apply count_app. Qed.

Lemma sleeps_app (ev1 ev2 : list event) :
  sleeps (ev1 ++ ev2) = (sleeps ev1 + sleeps ev2)%nat.
Proof. apply count_app. Qed.

Lemma wait_timeouts_app (ev1 ev2 : list event) :
  wait_timeouts (ev1 ++ ev2) = wait_timeouts ev1 ++ wait_timeouts ev2.
Proof.
  induction ev1 as [|ev rest IH]; [reflexivity|].
  destruct ev; simpl; rewrite IH; reflexivity.
Qed.

Lemma observe_app (keep : event → bool) (ev1 ev2 : list event) :
  observe keep (ev1 ++ ev2) = observe keep ev1 ++ observe keep ev2.
Proof.
  induction ev1 as [|ev rest IH]; simpl; [reflexivity|].
  destruct (keep ev); simpl; rewrite IH; reflexivity.
Qed.

(** ** Running the monad and the agent call *)

Lemma bind_run {A B} (m : pyM A) (k : A → pyM B) (w : world) :
  (m ≫= k) w =
  match m w with
  | (Ok a, w1, ev1) => let '(r, w2, ev2) := k a w1 in (r, w2, ev1 ++ ev2)
  | (Raise e, w1, ev1) => (Raise e, w1, ev1)
  | (Hang, w1, ev1) => (Hang, w1, ev1)
  end.
Proof. reflexivity. Qed.

Lemma call_agent_truthy (x : execution) (v : pyval) :
  _call_agent_blocking x = Ok v → truthy v = true.
Proof.
  unfold _call_agent_blocking, _extract_final_text.
  destruct (outcome x); [|discriminate].
  destruct (truthy (final_response_text r)) eqn:E; simpl; [|discriminate].
  intros [= <-]. exact E.
Qed.

Lemma call_agent_no_hang (x : execution) : _call_agent_blocking x ≠ Hang.
Proof.
  unfold _call_agent_blocking, _extract_final_text.
  destruct (outcome x); [|discriminate].
  destruct (truthy (final_response_text r)); discriminate.
Qed.

Lemma extraction_fails_raises (x : execution) :
  extraction_fails x = true → _call_agent_blocking x = Raise extraction_error.
Proof.
  unfold extraction_fails, _call_agent_blocking, _extract_final_text.
  destruct (outcome x); [|discriminate]. intros ->. reflexivity.
Qed.

Lemma agent_raises_raises (x : execution) :
  agent_raises x = true → ∃ e, _call_agent_blocking x = Raise e.
Proof.
  unfold agent_raises, _call_agent_blocking.
  destruct (outcome x); [discriminate|]. eauto.
Qed.

Ltac unfold_call :=
  unfold submit, wait_future, on_error, log, emit, raise, hang, lift,
    mbind, pyM_bind, mret, pyM_ret.

Ltac close_call :=
  unfold submissions, sleeps; repeat split; simpl; try done; try lia;
  try (repeat constructor; fail);
  try (intros ? [= <-]; eauto; fail).

(** ** One attempt and the loop, for both entry points *)

Section SharedLoopFacts.

Variable settings : Settings.
Variable worker : nat → string → string → string → execution.
Variable rnd : nat → Q.
Variable timed_out : exn.
Variable is_timeout : exn → bool.
Variable is_async : bool.
Variable pause : Q → pyM unit.

(** The pause returns, leaves the store alone and at most sleeps. *)
Hypothesis pause_ok :
  ∀ d w, ∃ evs, pause d w = (Ok tt, w, evs) ∧ (evs = [] ∨ evs = [Slept d]).

Lemma call_with_post chat_id input_text model w :
  ∃ r w' evs,
    call_with settings worker timed_out is_async chat_id input_text model w = (r, w', evs)
    ∧ r ≠ Hang
    ∧ drawn w' = drawn w
    ∧ executed w' = (executed w + submissions evs)%nat
    ∧ (submissions evs ≤ 1)%nat
    ∧ sleeps evs = 0%nat
    ∧ Forall (λ t, t = Some (timeout_s settings)) (wait_timeouts evs)
    ∧ (∀ v, r = Ok v → ∃ t, v = inr t ∧
            _call_agent_blocking (worker (executed w) chat_id input_text model) = Ok t)
    ∧ (live w = true → live w' = true ∧ submissions evs = 1%nat).
Proof.
  pose proof (call_agent_no_hang (worker (executed w) chat_id input_text model)) as Hnh.
  unfold call_with. rewrite bind_run, get_executor_run. unfold live.
  destruct (_executor w) as [ref|] eqn:Hex; cbv zeta.
  - unfold_call. simpl. repeat (case_match; simplify_eq/=).
    all: do 3 eexists; (split; [reflexivity|]); simpl.
    all: rewrite ?Hex.
    all: close_call.
    all: try (intros _; repeat match goal with H : _ = _ |- _ => rewrite H end; done).
    all: try (repeat match goal with H : _ = _ |- _ => rewrite H end; done).
  - unfold_call. simpl. rewrite lookup_insert_eq. simpl.
    repeat (case_match; simplify_eq/=).
    all: do 3 eexists; (split; [reflexivity|]); simpl.
    all: rewrite ?lookup_insert_eq.
    all: close_call.
Qed.


Lemma on_error_run chat_id attempt e w :
  ∃ msg, on_error settings is_timeout chat_id attempt e w
         = (Ok (inl (Some e)), w, [Logged WARNING msg]).
Proof. unfold_call. destruct (is_timeout e); eexists; reflexivity. Qed.

Lemma backoff_with_post attempt w :
  ∃ w' evs,
    backoff_with settings rnd pause attempt w = (Ok tt, w', evs)
    ∧ _executor w' = _executor w ∧ heap w' = heap w ∧ executed w' = executed w
    ∧ drawn w' = (drawn w + (if (attempt <? max_retries settings)%Z then 1 else 0))%nat
    ∧ submissions evs = 0%nat
    ∧ wait_timeouts evs = []
    ∧ (sleeps evs ≤ 1)%nat
    ∧ ((attempt <? max_retries settings) = false → sleeps evs = 0%nat).
Proof.
  unfold backoff_with. destruct (attempt <? max_retries settings) eqn:Hlt.
  - rewrite bind_run, compute_backoff_delay_run.
    destruct (pause_ok (capped_delay settings attempt
                + (0 + (capped_delay settings attempt * (2 # 10) - 0) * rnd (drawn w)))%Q
                (mk_world (_executor w) (heap w) (executed w) (S (drawn w))))
      as (evs & -> & Hevs).
    do 2 eexists. split; [reflexivity|]. simpl.
    destruct Hevs as [-> | ->]; close_call.
  - do 2 eexists. split; [reflexivity|]. close_call.
Qed.

Lemma attempt_with_post chat_id input_text model attempt last_exc w :
  ∃ r w' evs,
    attempt_with settings worker rnd timed_out is_timeout is_async pause
                 chat_id input_text model attempt last_exc w = (Ok r, w', evs)
    ∧ executed w' = (executed w + submissions evs)%nat
    ∧ (submissions evs ≤ 1)%nat
    ∧ (sleeps evs ≤ 1)%nat
    ∧ Forall (λ t, t = Some (timeout_s settings)) (wait_timeouts evs)
    ∧ (∀ v, r = inr v →
            _call_agent_blocking (worker (executed w) chat_id input_text model) = Ok v
            ∧ drawn w' = drawn w ∧ sleeps evs = 0%nat)
    ∧ (∀ s, r = inl s →
            is_Some s
            ∧ drawn w' = (drawn w + (if (attempt <? max_retries settings)%Z then 1 else 0))%nat)
    ∧ ((attempt <? max_retries settings) = false → sleeps evs = 0%nat ∧ drawn w' = drawn w)
    ∧ (live w = true → live w' = true ∧ submissions evs = 1%nat).
Proof.
  unfold attempt_with. rewrite bind_run. unfold try_except.
  destruct (call_with_post chat_id input_text model w)
    as (r & w1 & ev1 & -> & Hnh & Hd & Hx & Hs & Hsl & Hw & Hok & Hlive).
  destruct r as [v|e|]; [| |congruence].
  - destruct (Hok v eq_refl) as (t & -> & Hcall).
    do 3 eexists. split; [reflexivity|]. rewrite app_nil_r.
    rewrite Hsl. split_and!; try done; try lia.
    intros v [= <-]. auto.
  - destruct (on_error_run chat_id attempt e w1) as (msg & ->).
    rewrite bind_run.
    destruct (backoff_with_post attempt w1)
      as (w2 & ev2 & -> & Hex2 & Hh2 & Hx2 & Hd2 & Hs2 & Hw2 & Hsl2 & Hno2).
    do 3 eexists. split; [reflexivity|].
    rewrite !submissions_app, !sleeps_app, !wait_timeouts_app, Hw2, Hx2, Hd2, Hd.
    unfold submissions, sleeps in *. simpl. rewrite !app_nil_r.
    split_and!; try done; try lia.
    + intros s [= <-]. eauto.
    + intros Hlt. rewrite Hlt. split; [specialize (Hno2 Hlt) | ]; lia.
    + intros Hl. destruct (Hlive Hl) as [Hl1 Hone]. split; [|lia].
      unfold live in *. rewrite Hex2, Hh2. exact Hl1.
Qed.

(** The loop over any list of attempt indices. *)
Lemma attempts_post chat_id input_text model (xs : list Z) :
  ∀ last_exc w,
  ∃ r w' evs,
    for_each xs (attempt_with settings worker rnd timed_out is_timeout is_async pause
                              chat_id input_text model) last_exc w = (Ok r, w', evs)
    ∧ (submissions evs ≤ length xs)%nat
    ∧ (sleeps evs ≤ length xs)%nat
    ∧ Forall (λ t, t = Some (timeout_s settings)) (wait_timeouts evs)
    ∧ (∀ v, r = inr v →
            ∃ k, _call_agent_blocking (worker k chat_id input_text model) = Ok v)
    ∧ (Forall (λ x, (x <? max_retries settings) = false) xs →
       sleeps evs = 0%nat ∧ drawn w' = drawn w)
    ∧ (live w = true → live w' = true ∧ (1 ≤ length xs → 1 ≤ submissions evs)%nat).
Proof.
  induction xs as [|x rest IH]; intros last_exc w.
  - do 3 eexists. split; [reflexivity|]. split_and!; simpl; try done; try lia.
  - simpl. rewrite bind_run.
    destruct (attempt_with_post chat_id input_text model x last_exc w)
      as (r & w1 & ev1 & -> & Hx & Hs & Hsl & Hw & Hret & Hfall & Hlast & Hlive).
    destruct r as [s|v].
    + destruct (IH s w1) as (r2 & w2 & ev2 & -> & Hs2 & Hsl2 & Hw2 & Hret2 & Hlast2 & Hlive2).
      do 3 eexists. split; [reflexivity|].
      rewrite submissions_app, sleeps_app, wait_timeouts_app.
      split_and!; try lia.
      * apply Forall_app; split; assumption.
      * exact Hret2.
      * intros [H1 H2]%Forall_cons.
        destruct (Hlast H1) as [-> <-]. destruct (Hlast2 H2) as [-> ->]. done.
      * intros Hl. destruct (Hlive Hl) as [Hl1 ->]. split; [apply Hlive2, Hl1 | lia].
    + do 3 eexists. split; [reflexivity|]. rewrite app_nil_r.
      destruct (Hret v eq_refl) as (Hcall & Hd & Hz).
      split_and!; try lia; try assumption; try (intros _; auto; fail).
      * intros v' [= <-]. eauto.
      * intros Hl. destruct (Hlive Hl) as [Hl1 ->]. split; [exact Hl1 | lia].
Qed.

End SharedLoopFacts.

(** ** The two entry points as instances of the shared loop *)

Lemma process_agent_request_shared settings worker rnd :
  process_agent_request settings worker rnd
  = process_with settings worker rnd (mk_exn FuturesTimeout "") is_FuturesTimeout false
                 pause_blocking.
Proof. reflexivity. Qed.

Lemma process_agent_request_async_shared settings worker rnd :
  process_agent_request_async settings worker rnd
  = process_with settings worker rnd (mk_exn AsyncioTimeout "") is_AsyncioTimeout true
                 pause_async.
Proof. reflexivity. Qed.

Lemma pause_blocking_ok (d : Q) (w : world) :
  ∃ evs, pause_blocking d w = (Ok tt, w, evs) ∧ (evs = [] ∨ evs = [Slept d]).
Proof.
  unfold pause_blocking, try_except, time_sleep.
  destruct (Qle_bool 0 d); eexists; (split; [reflexivity|]); auto.
Qed.

Lemma pause_async_ok (d : Q) (w : world) :
  ∃ evs, pause_async d w = (Ok tt, w, evs) ∧ (evs = [] ∨ evs = [Slept d]).
Proof.
  unfold pause_async, asyncio_sleep.
  destruct (Qle_bool d 0); eexists; (split; [reflexivity|]); auto.
Qed.

Lemma max_retries_nonneg settings : 0 ≤ max_retries settings.
Proof. unfold max_retries. lia. Qed.

Lemma length_attempts settings :
  Z.of_nat (length (range 0 (max_retries settings + 1))) = max_retries settings + 1.
Proof.
  unfold range. rewrite length_seqZ. pose proof (max_retries_nonneg settings). lia.
Qed.

Section ProcessFacts.

Variable settings : Settings.
Variable worker : nat → string → string → string → execution.
Variable rnd : nat → Q.
Variable timed_out : exn.
Variable is_timeout : exn → bool.
Variable is_async : bool.
Variable pause : Q → pyM unit.

Hypothesis pause_ok :
  ∀ d w, ∃ evs, pause d w = (Ok tt, w, evs) ∧ (evs = [] ∨ evs = [Slept d]).

Lemma process_with_post chat_id input_text model w :
  ∃ r w' evs,
    process_with settings worker rnd timed_out is_timeout is_async pause
                 chat_id input_text model w = (Ok r, w', evs)
    ∧ Z.of_nat (submissions evs) ≤ max_retries settings + 1
    ∧ Forall (λ t, t = Some (timeout_s settings)) (wait_timeouts evs)
    ∧ (∀ v, r = Some v →
            truthy v = true
            ∧ ∃ mid k, configured model = Some mid
                       ∧ _call_agent_blocking (worker k chat_id input_text mid) = Ok v)
    ∧ (configured model = None →
       r = None ∧ w' = w ∧ evs = [Logged ERROR MsgNotConfigured])
    ∧ (max_retries settings = 0 → sleeps evs = 0%nat ∧ drawn w' = drawn w)
    ∧ (live w = true →
       live w' = true ∧ (configured model ≠ None → 1 ≤ submissions evs)%nat).
Proof.
  unfold process_with. destruct (configured model) as [mid|] eqn:Hcfg.
  - rewrite bind_run. unfold log at 1, emit at 1. cbn beta iota zeta. rewrite bind_run.
    destruct (attempts_post settings worker rnd timed_out is_timeout is_async pause pause_ok
                chat_id input_text mid (range 0 (max_retries settings + 1)) None w)
      as (r & w1 & ev1 & E & Hs & Hsl & Hw & Hret & Hlast & Hlive).
    rewrite E.
    pose proof (length_attempts settings) as Hlen.
    pose proof (max_retries_nonneg settings) as Hnn.
    assert (max_retries settings = 0 → sleeps ev1 = 0%nat ∧ drawn w1 = drawn w) as Hzero.
    { intros Hz. apply Hlast. rewrite Hz. repeat constructor. }
    assert (live w = true → live w1 = true ∧ (1 ≤ submissions ev1)%nat) as Hl.
    { intros Hl. destruct (Hlive Hl) as [Hl1 Hone]. split; [exact Hl1|]. apply Hone. lia. }
    destruct r as [last_exc|v].
    + do 3 eexists. split; [reflexivity|].
      change (submissions ([Logged INFO (MsgStarting is_async chat_id)]
                ++ ev1 ++ [Logged ERROR (MsgGaveUp is_async chat_id last_exc)] ++ []))
        with (submissions (ev1 ++ [Logged ERROR (MsgGaveUp is_async chat_id last_exc)] ++ [])).
      change (sleeps ([Logged INFO (MsgStarting is_async chat_id)]
                ++ ev1 ++ [Logged ERROR (MsgGaveUp is_async chat_id last_exc)] ++ []))
        with (sleeps (ev1 ++ [Logged ERROR (MsgGaveUp is_async chat_id last_exc)] ++ [])).
      change (wait_timeouts ([Logged INFO (MsgStarting is_async chat_id)]
                ++ ev1 ++ [Logged ERROR (MsgGaveUp is_async chat_id last_exc)] ++ []))
        with (wait_timeouts (ev1 ++ [Logged ERROR (MsgGaveUp is_async chat_id last_exc)] ++ [])).
      rewrite submissions_app, sleeps_app, wait_timeouts_app. simpl.
      rewrite app_nil_r, !Nat.add_0_r.
      split_and!; try done; try lia.
      all: try (intros Hz; destruct (Hzero Hz); auto; fail).
      all: try (intros Hlv; destruct (Hl Hlv); auto; fail).
    + do 3 eexists. split; [reflexivity|].
      rewrite app_nil_r.
      change (submissions ([Logged INFO (MsgStarting is_async chat_id)] ++ ev1))
        with (submissions ev1).
      change (sleeps ([Logged INFO (MsgStarting is_async chat_id)] ++ ev1))
        with (sleeps ev1).
      change (wait_timeouts ([Logged INFO (MsgStarting is_async chat_id)] ++ ev1))
        with (wait_timeouts ev1).
      split_and!; try done; try lia.
      all: try (intros Hz; destruct (Hzero Hz); auto; fail).
      all: try (intros Hlv; destruct (Hl Hlv); auto; fail).
      intros v' [= <-]. destruct (Hret v eq_refl) as [k Hk].
      split; [eapply call_agent_truthy; exact Hk | eauto].
  - do 3 eexists. split; [reflexivity|]. simpl.
    pose proof (max_retries_nonneg settings).
    split_and!; try done; try lia.
    all: try (intros Hlv; split; [exact Hlv | congruence]).
    unfold submissions. simpl. lia.
Qed.

End ProcessFacts.

(** ** The whole call in closed form *)

Lemma process_with_run settings worker rnd timed_out is_timeout is_async pause
      chat_id input_text model w :
  process_with settings worker rnd timed_out is_timeout is_async pause
               chat_id input_text model w
  = match configured model with
    | None => (Ok None, w, [Logged ERROR MsgNotConfigured])
    | Some mid =>
        match for_each (range 0 (max_retries settings + 1))
                       (attempt_with settings worker rnd timed_out is_timeout is_async pause
                                     chat_id input_text mid) None w with
        | (Ok (inr v), w', evs) =>
            (Ok (Some v), w', Logged INFO (MsgStarting is_async chat_id) :: evs)
        | (Ok (inl last_exc), w', evs) =>
            (Ok None, w',
             Logged INFO (MsgStarting is_async chat_id)
                    :: evs ++ [Logged ERROR (MsgGaveUp is_async chat_id last_exc)])
        | (Raise e, w', evs) =>
            (Raise e, w', Logged INFO (MsgStarting is_async chat_id) :: evs)
        | (Hang, w', evs) =>
            (Hang, w', Logged INFO (MsgStarting is_async chat_id) :: evs)
        end
    end.
Proof.
  unfold process_with. destruct (configured model) as [mid|]; [|reflexivity].
  rewrite bind_run. unfold log at 1, emit at 1. cbn beta iota zeta. rewrite bind_run.
  destruct (for_each _ _ None w) as [[[[s|v]|e|] w'] evs]; simpl; rewrite ?app_nil_r;
    reflexivity.
Qed.

(** ** Two runs of the loop side by side *)

Lemma for_each_similar {X S1 S2 R} (keep : event → bool)
      (body1 : X → S1 → pyM (S1 + R)) (body2 : X → S2 → pyM (S2 + R)) :
  (∀ x s1 s2 w, similar keep (body1 x s1 w) (body2 x s2 w)) →
  ∀ xs s1 s2 w, similar keep (for_each xs body1 s1 w) (for_each xs body2 s2 w).
Proof.
  intros Hbody xs. induction xs as [|x rest IH]; intros s1 s2 w.
  - repeat split.
  - simpl. rewrite !bind_run.
    specialize (Hbody x s1 s2 w).
    destruct (body1 x s1 w) as [[r1 w1] ev1], (body2 x s2 w) as [[r2 w2] ev2].
    destruct Hbody as (Hw & Hev & Hflow).
    unfold similar, world_of, events_of, result_of in *. simpl in *. subst w2.
    destruct r1 as [[s1'|v1]|e1|], r2 as [[s2'|v2]|e2|]; simpl in Hflow; try contradiction.
    + specialize (IH s1' s2' w1).
      destruct (for_each rest body1 s1' w1) as [[r1 w1'] ev1'],
               (for_each rest body2 s2' w1) as [[r2 w2'] ev2'].
      destruct IH as (Hw' & Hev' & Hflow'). simpl in *.
      rewrite !observe_app, Hev, Hev'. repeat split; assumption.
    + subst v2. simpl. rewrite !observe_app, Hev. repeat split.
    + repeat split; assumption.
Qed.

Ltac finish_similar :=
  cbn [observe];
  repeat match goal with H : ∀ lvl msg, _ (Logged lvl msg) = false |- _ => rewrite !H end;
  cbn [observe]; done.

Section Simulation.

Variable settings : Settings.
Variable rnd : nat → Q.
Variable worker1 worker2 : nat → string → string → string → execution.
Variable timed_out1 timed_out2 : exn.
Variable is_timeout1 is_timeout2 : exn → bool.
Variable is_async1 is_async2 : bool.
Variable pause1 pause2 : Q → pyM unit.
Variable keep : event → bool.

Hypothesis keep_log : ∀ lvl msg, keep (Logged lvl msg) = false.

Hypothesis pause_similar :
  ∀ d w, ∃ ev1 ev2,
    pause1 d w = (Ok tt, w, ev1) ∧ pause2 d w = (Ok tt, w, ev2)
    ∧ observe keep ev1 = observe keep ev2.

Hypothesis same_duration :
  ∀ k c i m, duration (worker1 k c i m) = duration (worker2 k c i m).

Hypothesis same_outcome :
  ∀ k c i m,
    _call_agent_blocking (worker1 k c i m) = _call_agent_blocking (worker2 k c i m)
    ∨ ((∃ e, _call_agent_blocking (worker1 k c i m) = Raise e)
       ∧ (∃ e, _call_agent_blocking (worker2 k c i m) = Raise e)).

Lemma call_with_similar chat_id input_text model w :
  similar keep
    (call_with settings worker1 timed_out1 is_async1 chat_id input_text model w)
    (call_with settings worker2 timed_out2 is_async2 chat_id input_text model w).
Proof.
  pose proof (call_agent_no_hang (worker1 (executed w) chat_id input_text model)) as Hnh1.
  pose proof (call_agent_no_hang (worker2 (executed w) chat_id input_text model)) as Hnh2.
  pose proof (same_duration (executed w) chat_id input_text model) as Hdur.
  pose proof (same_outcome (executed w) chat_id input_text model) as Hout.
  unfold call_with, similar, world_of, events_of, result_of.
  rewrite !bind_run, get_executor_run.
  destruct (_executor w) as [ref|] eqn:Hex; cbv zeta.
  - unfold_call. cbn -[observe]. rewrite Hdur.
    destruct Hout as [Hout | [[e1 H1] [e2 H2]]].
    + rewrite Hout. repeat (case_match; simplify_eq; cbn -[observe] in * ); finish_similar.
    + rewrite H1, H2. repeat (case_match; simplify_eq; cbn -[observe] in * ); finish_similar.
  - unfold_call. cbn -[observe]. rewrite lookup_insert_eq. cbn -[observe]. rewrite Hdur.
    destruct Hout as [Hout | [[e1 H1] [e2 H2]]].
    + rewrite Hout. repeat (case_match; simplify_eq; cbn -[observe] in * ); finish_similar.
    + rewrite H1, H2. repeat (case_match; simplify_eq; cbn -[observe] in * ); finish_similar.
Qed.

Lemma backoff_with_similar attempt w :
  ∃ w' ev1 ev2,
    backoff_with settings rnd pause1 attempt w = (Ok tt, w', ev1)
    ∧ backoff_with settings rnd pause2 attempt w = (Ok tt, w', ev2)
    ∧ observe keep ev1 = observe keep ev2.
Proof.
  unfold backoff_with. destruct (attempt <? max_retries settings).
  - rewrite !bind_run, compute_backoff_delay_run.
    destruct (pause_similar
                (capped_delay settings attempt
                 + (0 + (capped_delay settings attempt * (2 # 10) - 0) * rnd (drawn w)))%Q
                (mk_world (_executor w) (heap w) (executed w) (S (drawn w))))
      as (ev1 & ev2 & -> & -> & Hev).
    do 3 eexists. split; [reflexivity|]. split; [reflexivity|]. exact Hev.
  - do 3 eexists. split; [reflexivity|]. split; reflexivity.
Qed.

Lemma attempt_with_similar chat_id input_text model attempt last1 last2 w :
  similar keep
    (attempt_with settings worker1 rnd timed_out1 is_timeout1 is_async1 pause1
                  chat_id input_text model attempt last1 w)
    (attempt_with settings worker2 rnd timed_out2 is_timeout2 is_async2 pause2
                  chat_id input_text model attempt last2 w).
Proof.
  unfold attempt_with. rewrite !bind_run. unfold try_except.
  pose proof (call_with_similar chat_id input_text model w) as Hcall.
  destruct (call_with settings worker1 timed_out1 is_async1 chat_id input_text model w)
    as [[r1 w1] ev1],
    (call_with settings worker2 timed_out2 is_async2 chat_id input_text model w)
    as [[r2 w2] ev2].
  destruct Hcall as (Hw & Hev & Hflow).
  unfold similar, world_of, events_of, result_of in *. simpl in *. subst w2.
  destruct r1 as [[s1|v1]|e1|], r2 as [[s2|v2]|e2|]; simpl in Hflow; try contradiction.
  - rewrite !bind_run.
    destruct (backoff_with_similar attempt w1) as (w' & b1 & b2 & -> & -> & Hb).
    unfold similar. simpl. rewrite !observe_app, Hev, Hb. repeat split.
  - subst v2. unfold similar. simpl. rewrite !observe_app, Hev. repeat split.
  - destruct (on_error_run settings is_timeout1 chat_id attempt e1 w1) as (m1 & ->).
    destruct (on_error_run settings is_timeout2 chat_id attempt e2 w1) as (m2 & ->).
    rewrite !bind_run.
    destruct (backoff_with_similar attempt w1) as (w' & b1 & b2 & -> & -> & Hb).
    unfold similar. simpl. rewrite !observe_app, Hev, Hb. simpl. rewrite !keep_log.
    repeat split.
Qed.

Lemma process_with_similar chat_id input_text model w :
  let o1 := process_with settings worker1 rnd timed_out1 is_timeout1 is_async1 pause1
                         chat_id input_text model w in
  let o2 := process_with settings worker2 rnd timed_out2 is_timeout2 is_async2 pause2
                         chat_id input_text model w in
  world_of o1 = world_of o2
  ∧ observe keep (events_of o1) = observe keep (events_of o2)
  ∧ (∀ r1 r2, result_of o1 = Ok r1 → result_of o2 = Ok r2 → r1 = r2).
Proof.
  cbv zeta. rewrite !process_with_run. destruct (configured model) as [mid|].
  - pose proof (for_each_similar keep _ _
                  (λ x s1 s2 w0, attempt_with_similar chat_id input_text mid x s1 s2 w0)
                  (range 0 (max_retries settings + 1)) None None w) as Hloop.
    destruct (for_each (range 0 (max_retries settings + 1))
                (attempt_with settings worker1 rnd timed_out1 is_timeout1 is_async1 pause1
                   chat_id input_text mid) None w) as [[r1 w1] ev1],
             (for_each (range 0 (max_retries settings + 1))
                (attempt_with settings worker2 rnd timed_out2 is_timeout2 is_async2 pause2
                   chat_id input_text mid) None w) as [[r2 w2] ev2].
    destruct Hloop as (Hw & Hev & Hflow).
    unfold similar, world_of, events_of, result_of in *.
    cbn -[observe] in *. subst w2.
    destruct r1 as [[s1|v1]|e1|], r2 as [[s2|v2]|e2|]; cbn -[observe] in *;
      try contradiction;
      cbn [observe]; rewrite ?observe_app, ?keep_log, ?Hev; cbn [observe];
      rewrite ?keep_log; split_and!; try done; try congruence.
  - cbn. rewrite !keep_log. split_and!; try done. congruence.
Qed.

End Simulation.

(** ** When every call of the agent fails *)

Section Exhaustion.

Variable settings : Settings.
Variable worker : nat → string → string → string → execution.
Variable rnd : nat → Q.
Variable timed_out : exn.
Variable is_timeout : exn → bool.
Variable is_async : bool.
Variable pause : Q → pyM unit.

Hypothesis pause_sleeps :
  ∀ d w, (0 <= d)%Q → pause d w = (Ok tt, w, [Slept d]).

Hypothesis base_nonneg : (0 <= agent_retry_backoff_base_sec settings)%Q.
Hypothesis max_nonneg : (0 <= agent_retry_backoff_max_sec settings)%Q.
Hypothesis rnd_nonneg : ∀ k, (0 <= rnd k)%Q.

Hypothesis all_fail :
  ∀ k c i m, ∃ e, _call_agent_blocking (worker k c i m) = Raise e.

Lemma backoff_with_sleeps attempt w :
  0 ≤ attempt →
  ∃ w' evs,
    backoff_with settings rnd pause attempt w = (Ok tt, w', evs)
    ∧ _executor w' = _executor w ∧ heap w' = heap w ∧ executed w' = executed w
    ∧ drawn w' = (drawn w + backoffs_after settings attempt)%nat
    ∧ submissions evs = 0%nat
    ∧ sleeps evs = backoffs_after settings attempt.
Proof.
  intros Ha. unfold backoff_with, backoffs_after.
  destruct (attempt <? max_retries settings).
  - rewrite bind_run, compute_backoff_delay_run, pause_sleeps.
    + do 2 eexists. split; [reflexivity|]. simpl. split_and!; try done; lia.
    + pose proof (capped_delay_nonneg settings attempt Ha base_nonneg max_nonneg) as Hc.
      pose proof (rnd_nonneg (drawn w)) as Hu.
      assert (0 <= capped_delay settings attempt * rnd (drawn w))%Q
        by (apply Qmult_le_0_compat; assumption).
      nra.
  - do 2 eexists. split; [reflexivity|]. simpl. split_and!; try done; lia.
Qed.

Lemma attempt_with_failed chat_id input_text model attempt last_exc w :
  0 ≤ attempt →
  live w = true →
  ∃ e w' evs,
    attempt_with settings worker rnd timed_out is_timeout is_async pause
                 chat_id input_text model attempt last_exc w = (Ok (inl (Some e)), w', evs)
    ∧ live w' = true
    ∧ submissions evs = 1%nat
    ∧ sleeps evs = backoffs_after settings attempt
    ∧ drawn w' = (drawn w + backoffs_after settings attempt)%nat.
Proof.
  intros Ha Hl. unfold attempt_with. rewrite bind_run. unfold try_except.
  destruct (call_with_post settings worker timed_out is_async chat_id input_text model w)
    as (r & w1 & ev1 & -> & Hnh & Hd & Hx & Hs & Hsl & Hw & Hok & Hlive).
  destruct (Hlive Hl) as [Hl1 Hone].
  destruct (all_fail (executed w) chat_id input_text model) as [e0 He0].
  destruct r as [v|e|]; [| |congruence].
  - destruct (Hok v eq_refl) as (t & _ & Hcall). congruence.
  - destruct (on_error_run settings is_timeout chat_id attempt e w1) as (msg & ->).
    rewrite bind_run.
    destruct (backoff_with_sleeps attempt w1 Ha)
      as (w2 & ev2 & -> & Hex2 & Hh2 & Hx2 & Hd2 & Hs2 & Hsl2).
    do 3 eexists. split; [reflexivity|].
    rewrite !submissions_app, !sleeps_app, Hone, Hsl, Hs2, Hsl2, Hd2, Hd.
    unfold submissions, sleeps. simpl. split_and!; try lia.
    unfold live in *. rewrite Hex2, Hh2. exact Hl1.
Qed.

Lemma attempts_exhaust chat_id input_text model (n : nat) :
  ∀ a last_exc w,
    0 ≤ a →
    a + Z.of_nat n = max_retries settings + 1 →
    live w = true →
    ∃ s w' evs,
      for_each (seqZ a (Z.of_nat n))
               (attempt_with settings worker rnd timed_out is_timeout is_async pause
                             chat_id input_text model) last_exc w = (Ok (inl s), w', evs)
      ∧ live w' = true
      ∧ submissions evs = n
      ∧ sleeps evs = Nat.pred n
      ∧ drawn w' = (drawn w + Nat.pred n)%nat.
Proof.
  induction n as [|n IH]; intros a last_exc w Ha Hsum Hl.
  - do 3 eexists. split; [reflexivity|]. simpl. split_and!; try done; lia.
  - rewrite seqZ_cons by lia. simpl for_each. rewrite bind_run.
    destruct (attempt_with_failed chat_id input_text model a last_exc w Ha Hl)
      as (e & w1 & ev1 & -> & Hl1 & Hs1 & Hsl1 & Hd1).
    replace (Z.pred (Z.of_nat (S n))) with (Z.of_nat n) by lia.
    destruct (IH (Z.succ a) (Some e) w1 ltac:(lia) ltac:(lia) Hl1)
      as (s & w2 & ev2 & -> & Hl2 & Hs2 & Hsl2 & Hd2).
    do 3 eexists. split; [reflexivity|].
    rewrite submissions_app, sleeps_app, Hs1, Hs2, Hsl1, Hsl2, Hd2, Hd1.
    assert (backoffs_after settings a = (if n is O then 0 else 1)%nat) as ->.
    { unfold backoffs_after. destruct n.
      - destruct (Z.ltb_spec a (max_retries settings)); [lia | reflexivity].
      - destruct (Z.ltb_spec a (max_retries settings)); [reflexivity | lia]. }
    split_and!; try done; destruct n; simpl; lia.
Qed.

Lemma process_with_exhausted chat_id input_text model mid w :
  configured model = Some mid →
  live w = true →
  ∃ last_exc w' evs,
    process_with settings worker rnd timed_out is_timeout is_async pause
                 chat_id input_text model w = (Ok None, w', evs)
    ∧ last (observe is_log evs) = Some (Logged ERROR (MsgGaveUp is_async chat_id last_exc))
    ∧ Z.of_nat (submissions evs) = max_retries settings + 1
    ∧ Z.of_nat (sleeps evs) = max_retries settings
    ∧ Z.of_nat (drawn w') = Z.of_nat (drawn w) + max_retries settings.
Proof.
  intros Hcfg Hl. rewrite process_with_run, Hcfg.
  pose proof (max_retries_nonneg settings) as Hnn.
  unfold range.
  replace (max_retries settings + 1 - 0) with (Z.of_nat (Z.to_nat (max_retries settings + 1)))
    by lia.
  destruct (attempts_exhaust chat_id input_text mid (Z.to_nat (max_retries settings + 1))
              0 None w ltac:(lia) ltac:(lia) Hl)
    as (s & w1 & ev1 & -> & Hl1 & Hs & Hsl & Hd).
  do 3 eexists. split; [reflexivity|].
  change (submissions (Logged INFO (MsgStarting is_async chat_id)
            :: ev1 ++ [Logged ERROR (MsgGaveUp is_async chat_id s)]))
    with (submissions (ev1 ++ [Logged ERROR (MsgGaveUp is_async chat_id s)])).
  change (sleeps (Logged INFO (MsgStarting is_async chat_id)
            :: ev1 ++ [Logged ERROR (MsgGaveUp is_async chat_id s)]))
    with (sleeps (ev1 ++ [Logged ERROR (MsgGaveUp is_async chat_id s)])).
  rewrite submissions_app, sleeps_app, Hs, Hsl, Hd. unfold submissions, sleeps. simpl.
  split_and!; try lia.
  cbn [observe is_log]. rewrite observe_app. cbn [observe is_log].
  rewrite app_comm_cons. apply last_snoc.
Qed.

End Exhaustion.

(** ** The dispatcher's guarantees *)

(** C1: a call of the dispatcher hands at most [max_retries + 1] worker
    executions to the pool ([max_retries] is the configured number of retries
    clamped at zero, and the configured number itself when that is not
    negative); none at all, leaving the store untouched, when the model id is
    not configured; and with [max_retries = 0] a configured call makes exactly
    one execution, draws no jitter and never sleeps. *)
Theorem C1_worker_executions_bounded settings worker rnd chat_id input_text model w :
  let out := process_agent_request settings worker rnd chat_id input_text model w in
  Z.of_nat (submissions (events_of out)) ≤ max_retries settings + 1
  ∧ (0 ≤ agent_max_retries settings →
     Z.of_nat (submissions (events_of out)) ≤ agent_max_retries settings + 1)
  ∧ (configured model = None →
     submissions (events_of out) = 0%nat ∧ world_of out = w)
  ∧ (max_retries settings = 0 → configured model ≠ None → live w = true →
     submissions (events_of out) = 1%nat
     ∧ sleeps (events_of out) = 0%nat
     ∧ drawn (world_of out) = drawn w).
Proof.
  cbv zeta. rewrite process_agent_request_shared.
  destruct (process_with_post settings worker rnd (mk_exn FuturesTimeout "") is_FuturesTimeout false pause_blocking
              pause_blocking_ok chat_id input_text model w)
    as (r & w' & evs & -> & Hs & _ & _ & Hnone & Hzero & Hlive).
  unfold events_of, world_of. simpl. split_and!.
  - exact Hs.
  - intros Hnn. unfold max_retries in Hs. lia.
  - intros Hcfg. destruct (Hnone Hcfg) as (_ & -> & ->). split; reflexivity.
  - intros Hz Hcfg Hl. destruct (Hzero Hz) as [Hsl Hd]. destruct (Hlive Hl) as [_ Hone].
    specialize (Hone Hcfg). rewrite Hz in Hs. split_and!; [lia | exact Hsl | exact Hd].
Qed.

Lemma C1_worker_executions_bounded_witness :
  submissions (events_of (process_agent_request no_retry_settings failing_worker half_draws
                            "chat" "hi" (Some "model") initial_world)) = 1%nat
  ∧ sleeps (events_of (process_agent_request no_retry_settings failing_worker half_draws
                         "chat" "hi" (Some "model") initial_world)) = 0%nat
  ∧ drawn (world_of (process_agent_request no_retry_settings failing_worker half_draws
                       "chat" "hi" (Some "model") initial_world)) = drawn initial_world.
Proof.
  apply (C1_worker_executions_bounded no_retry_settings failing_worker half_draws
           "chat" "hi" (Some "model") initial_world).
  - reflexivity.
  - discriminate.
  - reflexivity.
Defined.




(** C10: an empty-string model id is treated exactly like an absent one by
    both entry points: the call logs the configuration error and returns
    [None] at once, with the store unchanged and nothing handed to the pool. *)
Theorem C10_empty_model_id_not_configured settings worker rnd chat_id input_text w :
  process_agent_request settings worker rnd chat_id input_text (Some "") w
  = process_agent_request settings worker rnd chat_id input_text None w
  ∧ process_agent_request settings worker rnd chat_id input_text (Some "") w
    = (Ok None, w, [Logged ERROR MsgNotConfigured])
  ∧ process_agent_request_async settings worker rnd chat_id input_text (Some "") w
    = process_agent_request_async settings worker rnd chat_id input_text None w
  ∧ process_agent_request_async settings worker rnd chat_id input_text (Some "") w
    = (Ok None, w, [Logged ERROR MsgNotConfigured])
  ∧ submissions [Logged ERROR MsgNotConfigured] = 0%nat.
Proof. split_and!; reflexivity. Qed.

(** ** The two entry points against each other, and failures of either kind *)

Lemma pause_blocking_sleeps (d : Q) (w : world) :
  (0 <= d)%Q → pause_blocking d w = (Ok tt, w, [Slept d]).
Proof.
  intros Hd. unfold pause_blocking, try_except, time_sleep.
  apply Qle_bool_iff in Hd. rewrite Hd. reflexivity.
Qed.

Lemma pauses_similar (d : Q) (w : world) :
  ∃ ev1 ev2,
    pause_blocking d w = (Ok tt, w, ev1) ∧ pause_async d w = (Ok tt, w, ev2)
    ∧ observe pool_effect ev1 = observe pool_effect ev2.
Proof.
  destruct (pause_blocking_ok d w) as (ev1 & -> & H1).
  destruct (pause_async_ok d w) as (ev2 & -> & H2).
  exists ev1, ev2. split; [reflexivity|]. split; [reflexivity|].
  destruct H1 as [-> | ->], H2 as [-> | ->]; reflexivity.
Qed.

Lemma pause_blocking_similar (d : Q) (w : world) :
  ∃ ev1 ev2,
    pause_blocking d w = (Ok tt, w, ev1) ∧ pause_blocking d w = (Ok tt, w, ev2)
    ∧ observe not_log ev1 = observe not_log ev2.
Proof.
  destruct (pause_blocking_ok d w) as (ev & -> & _).
  exists ev, ev. repeat split.
Qed.

(** Agent calls that fail are interchangeable: two agents that take the same
    time on every call and, call by call, either lead [_call_agent_blocking]
    to the same outcome or both make it raise, drive the dispatcher to the
    same result, the same store and the same effects, log records apart. *)
Lemma failures_interchangeable settings worker1 worker2 rnd chat_id input_text model w :
  (∀ k c i m, duration (worker1 k c i m) = duration (worker2 k c i m)) →
  (∀ k c i m,
      _call_agent_blocking (worker1 k c i m) = _call_agent_blocking (worker2 k c i m)
      ∨ ((∃ e, _call_agent_blocking (worker1 k c i m) = Raise e)
         ∧ (∃ e, _call_agent_blocking (worker2 k c i m) = Raise e))) →
  let o1 := process_agent_request settings worker1 rnd chat_id input_text model w in
  let o2 := process_agent_request settings worker2 rnd chat_id input_text model w in
  result_of o1 = result_of o2
  ∧ world_of o1 = world_of o2
  ∧ observe not_log (events_of o1) = observe not_log (events_of o2).
Proof.
  intros Hdur Hout. cbv zeta. rewrite !process_agent_request_shared.
  destruct (process_with_similar settings rnd worker1 worker2
              (mk_exn FuturesTimeout "") (mk_exn FuturesTimeout "")
              is_FuturesTimeout is_FuturesTimeout false false
              pause_blocking pause_blocking not_log
              ltac:(reflexivity) pause_blocking_similar Hdur Hout
              chat_id input_text model w) as (Hw & Hev & Hres).
  split_and!; [|exact Hw|exact Hev].
  destruct (process_with_post settings worker1 rnd (mk_exn FuturesTimeout "")
              is_FuturesTimeout false pause_blocking pause_blocking_ok
              chat_id input_text model w) as (r1 & w1 & ev1 & E1 & _).
  destruct (process_with_post settings worker2 rnd (mk_exn FuturesTimeout "")
              is_FuturesTimeout false pause_blocking pause_blocking_ok
              chat_id input_text model w) as (r2 & w2 & ev2 & E2 & _).
  rewrite E1, E2 in *. unfold result_of in *. simpl in *.
  f_equal. apply Hres; reflexivity.
Qed.




(** ** Submitting after a shutdown *)

Lemma C3_submit_after_shutdown_recreates_pool_witness :
  result_of (submit flaky_worker 0%nat "chat" "hi" "model"
               (world_of (shutdown_executor true
                            (world_of (_get_executor initial_world)))))
  = Raise pool_closed.
Proof.
  apply (C3_submit_after_shutdown_recreates_pool flaky_worker true "chat" "hi" "model"
           (world_of (_get_executor initial_world))).
  reflexivity.
Defined.

(** C3 fails as stated: once a pool has been created and shut down with
    [shutdown_executor], the next submission made the way the dispatcher makes
    it is accepted by a newly created pool instead of being refused, and a
    dispatcher call after the shutdown returns the agent's text. *)
Lemma C3_counterexample :
  let w1 := world_of (shutdown_executor true (world_of (_get_executor initial_world))) in
  (∃ fut,
      result_of ((executor ← _get_executor; submit flaky_worker executor "chat" "hi" "model") w1)
      = Ok fut)
  ∧ events_of ((executor ← _get_executor; submit flaky_worker executor "chat" "hi" "model") w1)
    = [PoolCreated 1 4; Submitted 1 "chat" "hi" "model"]
  ∧ result_of (process_agent_request default_settings
                 (λ _ _ _ _, mk_execution (Some 2%Q)
                               (AgentReturns (response_of [text_block "hello"])))
                 half_draws "chat" "hi" (Some "model") w1)
    = Ok (Some (PStr "hello")).
Proof.
  cbv zeta. split_and!.
  - eexists. vm_compute. reflexivity.
  - vm_compute. reflexivity.
  - vm_compute. reflexivity.
Qed.

(** ** The backoff schedule *)

Lemma capped_delay_le_max settings attempt :
  (capped_delay settings attempt <= agent_retry_backoff_max_sec settings)%Q.
Proof.
  unfold capped_delay.
  destruct (py_min_cases (agent_retry_backoff_max_sec settings)
              (agent_retry_backoff_base_sec settings * inject_Z (2 ^ attempt)))
    as [[H ->]|[H ->]]; lra.
Qed.

Lemma pow2_succ (attempt : Z) :
  0 ≤ attempt → (inject_Z (2 ^ (attempt + 1)) == 2 * inject_Z (2 ^ attempt))%Q.
Proof.
  intros H. rewrite Z.pow_add_r by lia. rewrite inject_Z_mult.
  change (inject_Z (2 ^ 1)) with 2%Q. ring.
Qed.



(** ** The first attempt that succeeds ends the loop *)

Section FirstSuccess.

Variable settings : Settings.
Variable worker : nat → string → string → string → execution.
Variable rnd : nat → Q.
Variable timed_out : exn.
Variable is_timeout : exn → bool.
Variable is_async : bool.
Variable pause : Q → pyM unit.

Hypothesis pause_ok :
  ∀ d w, ∃ evs, pause d w = (Ok tt, w, evs) ∧ (evs = [] ∨ evs = [Slept d]).

Lemma call_with_yield chat_id input_text model w :
  live w = true →
  ∃ r w' evs,
    call_with settings worker timed_out is_async chat_id input_text model w = (r, w', evs)
    ∧ match attempt_yield settings (worker (executed w) chat_id input_text model) with
      | Some v => r = Ok (inr v)
      | None => ∃ e, r = Raise e
      end.
Proof.
  intros Hl.
  pose proof (call_agent_no_hang (worker (executed w) chat_id input_text model)) as Hnh.
  destruct (live_get_executor w Hl) as (ref & w0 & ev0 & pool & Hget & Hex & Hpool & Hopen).
  assert (executed w0 = executed w) as Hsame.
  { rewrite get_executor_run in Hget. destruct (_executor w); simplify_eq/=; reflexivity. }
  unfold call_with, attempt_yield, in_time. rewrite bind_run, Hget.
  unfold_call. simpl. rewrite Hpool, Hopen, Hsame. simpl.
  destruct (duration (worker (executed w) chat_id input_text model)) as [d|]; simpl.
  - destruct (Qle_bool d (timeout_s settings)); simpl.
    + destruct (_call_agent_blocking (worker (executed w) chat_id input_text model))
        as [v|e|]; simpl; [| |congruence]; do 3 eexists; split; eauto.
    + do 3 eexists; split; eauto.
  - do 3 eexists; split; eauto.
Qed.

Lemma attempt_with_yield chat_id input_text model attempt last_exc w :
  live w = true →
  ∃ r w' evs,
    attempt_with settings worker rnd timed_out is_timeout is_async pause
                 chat_id input_text model attempt last_exc w = (Ok r, w', evs)
    ∧ live w' = true
    ∧ executed w' = S (executed w)
    ∧ submissions evs = 1%nat
    ∧ match attempt_yield settings (worker (executed w) chat_id input_text model) with
      | Some v => r = inr v ∧ drawn w' = drawn w
      | None =>
          (∃ e, r = inl (Some e))
          ∧ drawn w' = (drawn w + backoffs_after settings attempt)%nat
      end.
Proof.
  intros Hl.
  destruct (attempt_with_post settings worker rnd timed_out is_timeout is_async pause pause_ok
              chat_id input_text model attempt last_exc w)
    as (r & w' & evs & E & Hx & _ & _ & _ & Hret & Hfall & _ & Hlive).
  destruct (Hlive Hl) as [Hl' Hone].
  exists r, w', evs. split; [exact E|]. split; [exact Hl'|].
  split; [lia|]. split; [exact Hone|].
  (* which branch the attempt took is read off the call *)
  unfold attempt_with in E. rewrite bind_run in E. unfold try_except in E.
  destruct (call_with_yield chat_id input_text model w Hl) as (rc & wc & evc & Ec & Hy).
  rewrite Ec in E.
  destruct (attempt_yield settings (worker (executed w) chat_id input_text model)) as [v|].
  - subst rc. simpl in E. injection E as <- _ _.
    split; [reflexivity|]. apply (Hret v eq_refl).
  - destruct Hy as [e ->].
    destruct (on_error_run settings is_timeout chat_id attempt e wc) as (msg & Eh).
    rewrite Eh in E. rewrite bind_run in E.
    destruct (backoff_with settings rnd pause attempt wc) as [[[[]|eb|] wb] evb];
      simpl in E; try discriminate.
    injection E as <- _ _. split; [eauto|].
    destruct (Hfall (Some e) eq_refl) as [_ Hd]. exact Hd.
Qed.

Lemma attempts_first_success chat_id input_text model (n : nat) :
  ∀ a last_exc w,
    0 ≤ a →
    a + Z.of_nat n = max_retries settings + 1 →
    live w = true →
    ∃ r w' evs,
      for_each (seqZ a (Z.of_nat n))
               (attempt_with settings worker rnd timed_out is_timeout is_async pause
                             chat_id input_text model) last_exc w = (Ok r, w', evs)
      ∧ live w' = true
      ∧ match first_success settings worker chat_id input_text model (executed w) n with
        | Some (i, v) =>
            r = inr v ∧ submissions evs = S i ∧ executed w' = (executed w + S i)%nat
            ∧ drawn w' = (drawn w + i)%nat
        | None =>
            (∃ s, r = inl s) ∧ submissions evs = n ∧ executed w' = (executed w + n)%nat
            ∧ drawn w' = (drawn w + Nat.pred n)%nat
        end.
Proof.
  induction n as [|n IH]; intros a last_exc w Ha Hsum Hl.
  - do 3 eexists. split; [reflexivity|]. simpl. split_and!; eauto; lia.
  - rewrite seqZ_cons by lia. simpl for_each. rewrite bind_run.
    destruct (attempt_with_yield chat_id input_text model a last_exc w Hl)
      as (r & w1 & ev1 & -> & Hl1 & Hx1 & Hs1 & Hy).
    simpl first_success.
    destruct (attempt_yield settings (worker (executed w) chat_id input_text model)) as [v|].
    + destruct Hy as [-> Hd]. do 3 eexists. split; [reflexivity|].
      rewrite app_nil_r. split_and!; try done; lia.
    + destruct Hy as [[e ->] Hd].
      replace (Z.pred (Z.of_nat (S n))) with (Z.of_nat n) by lia.
      destruct (IH (Z.succ a) (Some e) w1 ltac:(lia) ltac:(lia) Hl1)
        as (r2 & w2 & ev2 & -> & Hl2 & Hrest).
      do 3 eexists. split; [reflexivity|]. split; [exact Hl2|].
      rewrite submissions_app, Hs1, Hx1 in *.
      assert (backoffs_after settings a = (if n is O then 0 else 1)%nat) as Hb.
      { unfold backoffs_after. destruct n.
        - destruct (Z.ltb_spec a (max_retries settings)); [lia | reflexivity].
        - destruct (Z.ltb_spec a (max_retries settings)); [reflexivity | lia]. }
      rewrite Hb in Hd.
      destruct (first_success settings worker chat_id input_text model (S (executed w)) n)
        as [[i v]|] eqn:Hfs.
      * destruct Hrest as (-> & Hs2 & Hx2 & Hd2).
        destruct n; [simpl in Hfs; discriminate | split_and!; try done; lia].
      * destruct Hrest as ([s ->] & Hs2 & Hx2 & Hd2).
        split_and!; eauto; destruct n; simpl in *; lia.
Qed.

Lemma process_with_first_success chat_id input_text model mid w :
  configured model = Some mid →
  live w = true →
  ∃ r w' evs,
    process_with settings worker rnd timed_out is_timeout is_async pause
                 chat_id input_text model w = (Ok r, w', evs)
    ∧ live w' = true
    ∧ match first_success settings worker chat_id input_text mid (executed w)
              (Z.to_nat (max_retries settings + 1)) with
      | Some (i, v) =>
          r = Some v ∧ submissions evs = S i ∧ executed w' = (executed w + S i)%nat
          ∧ drawn w' = (drawn w + i)%nat
      | None =>
          r = None
          ∧ Z.of_nat (submissions evs) = max_retries settings + 1
          ∧ Z.of_nat (executed w') = Z.of_nat (executed w) + max_retries settings + 1
          ∧ Z.of_nat (drawn w') = Z.of_nat (drawn w) + max_retries settings
      end.
Proof.
  intros Hcfg Hl. rewrite process_with_run, Hcfg.
  pose proof (max_retries_nonneg settings) as Hnn.
  unfold range.
  replace (max_retries settings + 1 - 0) with (Z.of_nat (Z.to_nat (max_retries settings + 1)))
    by lia.
  destruct (attempts_first_success chat_id input_text mid
              (Z.to_nat (max_retries settings + 1)) 0 None w ltac:(lia) ltac:(lia) Hl)
    as (r & w1 & ev1 & -> & Hl1 & Hfs).
  destruct (first_success settings worker chat_id input_text mid (executed w)
              (Z.to_nat (max_retries settings + 1))) as [[i v]|].
  - destruct Hfs as (-> & Hs & Hx & Hd).
    do 3 eexists. split; [reflexivity|]. split; [exact Hl1|].
    change (submissions (Logged INFO (MsgStarting is_async chat_id) :: ev1))
      with (submissions ev1). split_and!; try done.
  - destruct Hfs as ([s ->] & Hs & Hx & Hd).
    do 3 eexists. split; [reflexivity|]. split; [exact Hl1|].
    change (submissions (Logged INFO (MsgStarting is_async chat_id)
              :: ev1 ++ [Logged ERROR (MsgGaveUp is_async chat_id s)]))
      with (submissions (ev1 ++ [Logged ERROR (MsgGaveUp is_async chat_id s)])).
    rewrite submissions_app, Hs. unfold submissions. simpl. split_and!; try done; lia.
Qed.

End FirstSuccess.

(** ** The dispatcher and the pools *)

Lemma pool_invariant_pools (w1 w2 : world) :
  pools_of w1 = pools_of w2 → pool_invariant w1 → pool_invariant w2.
Proof.
  unfold pools_of, pool_invariant, live. intros [= He Hh]. rewrite He, Hh. auto.
Qed.

Lemma pool_invariant_get_executor (w : world) :
  pool_invariant w → pool_invariant (world_of (_get_executor w)).
Proof.
  intros (Hl & Hone & Hfour). rewrite get_executor_run.
  destruct (_executor w) as [ref|] eqn:Hex.
  - unfold world_of. simpl. unfold pool_invariant. rewrite Hex. auto.
  - unfold world_of, pool_invariant, live. simpl. rewrite lookup_insert_eq. simpl.
    split_and!; [reflexivity | |].
    + intros ref pool Hp Hopen. destruct (decide (ref = fresh (dom (heap w)))) as [->|Hne].
      * reflexivity.
      * rewrite lookup_insert_ne in Hp by congruence.
        specialize (Hone ref pool Hp Hopen). congruence.
    + intros ref pool Hp. destruct (decide (ref = fresh (dom (heap w)))) as [->|Hne].
      * rewrite lookup_insert_eq in Hp. injection Hp as <-. reflexivity.
      * rewrite lookup_insert_ne in Hp by congruence. eapply Hfour, Hp.
Qed.

Lemma get_executor_pools_set (w : world) :
  is_Some (_executor w) → pools_of (world_of (_get_executor w)) = pools_of w.
Proof. intros [ref Hex]. rewrite get_executor_run, Hex. reflexivity. Qed.

Lemma get_executor_sets (w : world) : is_Some (_executor (world_of (_get_executor w))).
Proof. rewrite get_executor_run. destruct (_executor w) eqn:E; simpl; eauto. Qed.

Lemma get_executor_pools_only (w1 w2 : world) :
  pools_of w1 = pools_of w2 →
  pools_of (world_of (_get_executor w1)) = pools_of (world_of (_get_executor w2)).
Proof.
  intros H. destruct w1 as [e1 h1 x1 d1], w2 as [e2 h2 x2 d2].
  unfold pools_of in H. simpl in H. injection H as -> ->.
  rewrite !get_executor_run. simpl. destruct e2; reflexivity.
Qed.

Section PoolsOfTheLoop.

Variable settings : Settings.
Variable worker : nat → string → string → string → execution.
Variable rnd : nat → Q.
Variable timed_out : exn.
Variable is_timeout : exn → bool.
Variable is_async : bool.
Variable pause : Q → pyM unit.

Hypothesis pause_ok :
  ∀ d w, ∃ evs, pause d w = (Ok tt, w, evs) ∧ (evs = [] ∨ evs = [Slept d]).

Lemma call_with_pools chat_id input_text model w :
  pools_of (world_of (call_with settings worker timed_out is_async
                                chat_id input_text model w))
  = pools_of (world_of (_get_executor w)).
Proof.
  unfold call_with. rewrite bind_run.
  destruct (_get_executor w) as [[[ref| |] w0] ev0] eqn:Hget;
    try (rewrite get_executor_run in Hget; destruct (_executor w); discriminate).
  unfold_call. simpl. unfold world_of, pools_of.
  repeat (case_match; simplify_eq/=); reflexivity.
Qed.

Lemma attempt_with_pools chat_id input_text model attempt last_exc w :
  pools_of (world_of (attempt_with settings worker rnd timed_out is_timeout is_async pause
                                   chat_id input_text model attempt last_exc w))
  = pools_of (world_of (_get_executor w)).
Proof.
  rewrite <- (call_with_pools chat_id input_text model w).
  unfold attempt_with. rewrite bind_run. unfold try_except.
  destruct (call_with_post settings worker timed_out is_async chat_id input_text model w)
    as (r & w1 & ev1 & -> & Hnh & _).
  destruct r as [[s|v]|e|]; [| | |congruence].
  - rewrite bind_run.
    destruct (backoff_with_post settings rnd pause pause_ok attempt w1)
      as (w2 & ev2 & -> & Hex & Hh & _).
    unfold world_of, pools_of. simpl. rewrite Hex, Hh. reflexivity.
  - reflexivity.
  - destruct (on_error_run settings is_timeout chat_id attempt e w1) as (msg & ->).
    rewrite bind_run.
    destruct (backoff_with_post settings rnd pause pause_ok attempt w1)
      as (w2 & ev2 & -> & Hex & Hh & _).
    unfold world_of, pools_of. simpl. rewrite Hex, Hh. reflexivity.
Qed.

Lemma attempts_pools chat_id input_text model (xs : list Z) :
  ∀ last_exc w,
    pools_of (world_of (for_each xs
                          (attempt_with settings worker rnd timed_out is_timeout is_async
                                        pause chat_id input_text model) last_exc w))
    = match xs with
      | [] => pools_of w
      | _ :: _ => pools_of (world_of (_get_executor w))
      end.
Proof.
  induction xs as [|x rest IH]; intros last_exc w; [reflexivity|].
  simpl for_each. rewrite bind_run.
  pose proof (attempt_with_pools chat_id input_text model x last_exc w) as Hp.
  destruct (attempt_with_post settings worker rnd timed_out is_timeout is_async pause pause_ok
              chat_id input_text model x last_exc w) as (r & w1 & ev1 & E & _).
  rewrite E in *. unfold world_of in Hp. simpl in Hp.
  destruct r as [s|v]; [|exact Hp].
  specialize (IH s w1).
  destruct (for_each rest _ s w1) as [[r2 w2] ev2]. unfold world_of in *. simpl in *.
  rewrite IH. destruct rest; [exact Hp|].
  rewrite <- Hp. apply get_executor_pools_set.
  assert (_executor w1 = _executor (world_of (_get_executor w))) as ->
    by (unfold pools_of in Hp; injection Hp; auto).
  apply get_executor_sets.
Qed.

Lemma process_with_pools chat_id input_text model w :
  pools_of (world_of (process_with settings worker rnd timed_out is_timeout is_async pause
                                   chat_id input_text model w))
  = match configured model with
    | Some _ => pools_of (world_of (_get_executor w))
    | None => pools_of w
    end.
Proof.
  rewrite process_with_run. destruct (configured model) as [mid|]; [|reflexivity].
  pose proof (attempts_pools chat_id input_text mid (range 0 (max_retries settings + 1))
                None w) as Hp.
  assert (range 0 (max_retries settings + 1) ≠ []) as Hne.
  { pose proof (length_attempts settings) as Hlen.
    pose proof (max_retries_nonneg settings).
    intros E. rewrite E in Hlen. simpl in Hlen. lia. }
  destruct (range 0 (max_retries settings + 1)) as [|x rest] eqn:Hr; [congruence|].
  rewrite <- Hp.
  destruct (for_each (x :: rest) _ None w) as [[[[s|v]|e|] w'] evs]; reflexivity.
Qed.

End PoolsOfTheLoop.



(** A dispatcher call touches the executor and the pools only through
    [_get_executor]: a configured call leaves them as one call of
    [_get_executor] would (an executor that is set is reused and nothing
    changes; otherwise one pool is created), however many attempts it makes;
    a call that is not configured leaves them alone.  It never shuts a pool
    down. *)
Theorem dispatcher_touches_pools_like_get_executor
        settings worker rnd chat_id input_text model w :
  let blocking := process_agent_request settings worker rnd chat_id input_text model w in
  let suspending :=
    process_agent_request_async settings worker rnd chat_id input_text model w in
  pools_of (world_of blocking)
  = match configured model with
    | Some _ => pools_of (world_of (_get_executor w))
    | None => pools_of w
    end
  ∧ pools_of (world_of suspending) = pools_of (world_of blocking)
  ∧ (is_Some (_executor w) → pools_of (world_of blocking) = pools_of w)
  ∧ (∀ ref pool, heap w !! ref = Some pool → heap (world_of blocking) !! ref = Some pool).
Proof.
  cbv zeta. rewrite process_agent_request_shared, process_agent_request_async_shared.
  pose proof (process_with_pools settings worker rnd (mk_exn FuturesTimeout "")
                is_FuturesTimeout false pause_blocking pause_blocking_ok
                chat_id input_text model w) as H1.
  pose proof (process_with_pools settings worker rnd (mk_exn AsyncioTimeout "")
                is_AsyncioTimeout true pause_async pause_async_ok
                chat_id input_text model w) as H2.
  split_and!.
  - exact H1.
  - rewrite H1, H2. reflexivity.
  - intros Hset. rewrite H1. destruct (configured model); [|reflexivity].
    apply get_executor_pools_set, Hset.
  - intros ref pool Hp.
    assert (heap (world_of (process_with settings worker rnd (mk_exn FuturesTimeout "")
                              is_FuturesTimeout false pause_blocking
                              chat_id input_text model w))
            = match configured model with
              | Some _ => heap (world_of (_get_executor w))
              | None => heap w
              end) as ->.
    { unfold pools_of in H1. destruct (configured model); injection H1; auto. }
    destruct (configured model); [|exact Hp].
    rewrite get_executor_run. destruct (_executor w) eqn:Hex; [exact Hp|].
    unfold world_of. simpl. rewrite lookup_insert_ne; [exact Hp|].
    intros <-. rewrite fresh_ref_unused in Hp. discriminate.
Qed.

Lemma pool_invariant_shutdown (wait : bool) (w : world) :
  pool_invariant w → pool_invariant (world_of (shutdown_executor wait w)).
Proof.
  intros (Hl & Hone & Hfour). rewrite shutdown_executor_run.
  destruct (_executor w) as [ref|] eqn:Hex.
  - unfold world_of, pool_invariant, live. simpl. split_and!; [reflexivity | |].
    + intros r pool Hp Hopen. rewrite lookup_alter in Hp.
      destruct (decide (ref = r)) as [->|Hne].
      * destruct (heap w !! r); simplify_eq/=.
      * specialize (Hone r pool Hp Hopen). congruence.
    + intros r pool Hp. rewrite lookup_alter in Hp.
      destruct (decide (ref = r)) as [->|Hne].
      * destruct (heap w !! r) as [p|] eqn:E; simplify_eq/=. eapply Hfour, E.
      * eapply Hfour, Hp.
  - unfold world_of. simpl. unfold pool_invariant. rewrite Hex. auto.
Qed.

Lemma reachable_pool_invariant (w : world) : reachable w → pool_invariant w.
Proof.
  induction 1 as [|settings worker rnd chat_id input_text model w _ IH
                  |settings worker rnd chat_id input_text model w _ IH
                  |wait w _ IH].
  - unfold pool_invariant, live. simpl. split_and!; [reflexivity | |];
      intros ref pool Hp; rewrite lookup_empty in Hp; discriminate.
  - rewrite process_agent_request_shared.
    apply (pool_invariant_pools
             (match configured model with
              | Some _ => world_of (_get_executor w)
              | None => w
              end)).
    + rewrite (process_with_pools settings worker rnd (mk_exn FuturesTimeout "")
                 is_FuturesTimeout false pause_blocking pause_blocking_ok).
      destruct (configured model); reflexivity.
    + destruct (configured model); [apply pool_invariant_get_executor|]; exact IH.
  - rewrite process_agent_request_async_shared.
    apply (pool_invariant_pools
             (match configured model with
              | Some _ => world_of (_get_executor w)
              | None => w
              end)).
    + rewrite (process_with_pools settings worker rnd (mk_exn AsyncioTimeout "")
                 is_AsyncioTimeout true pause_async pause_async_ok).
      destruct (configured model); reflexivity.
    + destruct (configured model); [apply pool_invariant_get_executor|]; exact IH.
  - apply pool_invariant_shutdown, IH.
Qed.

(** In every store the module can reach (from import, by dispatcher calls of
    either kind and shutdowns in any order) at most one pool accepts work: it
    is the one the global [_executor] refers to, every pool has four workers,
    and the global never refers to a pool that was shut down. *)
Theorem reachable_stores_have_one_open_pool (w : world) :
  reachable w →
  (∀ ref1 ref2 pool1 pool2,
      heap w !! ref1 = Some pool1 → is_shutdown pool1 = false →
      heap w !! ref2 = Some pool2 → is_shutdown pool2 = false →
      ref1 = ref2 ∧ _executor w = Some ref1)
  ∧ (∀ ref pool, heap w !! ref = Some pool → max_workers pool = 4%nat)
  ∧ (∀ ref, _executor w = Some ref →
            ∃ pool, heap w !! ref = Some pool ∧ is_shutdown pool = false).
Proof.
  intros Hr. destruct (reachable_pool_invariant w Hr) as (Hl & Hone & Hfour).
  split_and!.
  - intros ref1 ref2 pool1 pool2 Hp1 Ho1 Hp2 Ho2.
    pose proof (Hone ref1 pool1 Hp1 Ho1) as E1.
    pose proof (Hone ref2 pool2 Hp2 Ho2) as E2.
    split; [congruence | exact E1].
  - exact Hfour.
  - intros ref Hex. unfold live in Hl. rewrite Hex in Hl.
    destruct (heap w !! ref) as [pool|]; [|discriminate].
    exists pool. split; [reflexivity|]. destruct (is_shutdown pool); [discriminate|reflexivity].
Qed.

Lemma reachable_stores_have_one_open_pool_witness :
  let w := world_of (process_agent_request default_settings flaky_worker half_draws
                       "chat" "hi" (Some "model")
                       (world_of (shutdown_executor true
                                    (world_of (process_agent_request_async default_settings
                                                 blank_worker half_draws "chat" "hi"
                                                 (Some "model") initial_world))))) in
  (∀ ref1 ref2 pool1 pool2,
      heap w !! ref1 = Some pool1 → is_shutdown pool1 = false →
      heap w !! ref2 = Some pool2 → is_shutdown pool2 = false →
      ref1 = ref2 ∧ _executor w = Some ref1)
  ∧ (∀ ref pool, heap w !! ref = Some pool → max_workers pool = 4%nat)
  ∧ (∀ ref, _executor w = Some ref →
            ∃ pool, heap w !! ref = Some pool ∧ is_shutdown pool = false).
Proof.
  cbv zeta. apply reachable_stores_have_one_open_pool.
  apply reach_blocking, reach_shutdown, reach_async, reach_initial.
Defined.

(** After [shutdown_executor], in any reachable store, no pool accepts work
    any more: the pool the global referred to is shut down and no other pool
    was open. *)
Theorem shutdown_leaves_no_open_pool (wait : bool) (w : world) :
  reachable w →
  ∀ ref pool,
    heap (world_of (shutdown_executor wait w)) !! ref = Some pool →
    is_shutdown pool = true.
Proof.
  intros Hr ref pool Hp.
  destruct (reachable_pool_invariant w Hr) as (_ & Hone & _).
  rewrite shutdown_executor_run in Hp.
  destruct (_executor w) as [r|] eqn:Hex; unfold world_of in Hp; simpl in Hp.
  - rewrite lookup_alter in Hp. destruct (decide (r = ref)) as [->|Hne].
    + destruct (heap w !! ref); simplify_eq/=. reflexivity.
    + destruct (is_shutdown pool) eqn:E; [reflexivity|].
      specialize (Hone ref pool Hp E). congruence.
  - destruct (is_shutdown pool) eqn:E; [reflexivity|].
    specialize (Hone ref pool Hp E). congruence.
Qed.

Lemma shutdown_leaves_no_open_pool_witness :
  is_shutdown (mk_pool 4 "agent-worker" true) = true.
Proof.
  apply (shutdown_leaves_no_open_pool true
           (world_of (process_agent_request default_settings flaky_worker half_draws
                        "chat" "hi" (Some "model") initial_world))
           (reach_blocking _ _ _ _ _ _ _ reach_initial) 0%nat).
  vm_compute. reflexivity.
Defined.

(** ** The bearer-token check *)

Lemma mix_unequal_returns (a b : pystr) :
  ∀ i acc, ∃ r, mix_unequal a b i acc = Ok r.
Proof.
  induction a as [|ch rest IH]; intros i acc; simpl; [eauto|].
  destruct b as [|y ys]; simpl; [apply IH|].
  unfold str_index.
  destruct (lookup_lt_is_Some_2 (y :: ys) (i mod length (y :: ys))) as [c Hc].
  { apply Nat.mod_upper_bound. simpl. lia. }
  simpl in Hc. rewrite Hc. simpl. apply IH.
Qed.

Lemma mix_equal_zero (pairs : list (N * N)) :
  ∀ acc, mix_equal pairs acc = 0%N ↔ acc = 0%N ∧ Forall (λ p, p.1 = p.2) pairs.
Proof.
  induction pairs as [|[x y] rest IH]; intros acc; simpl.
  - split; [intros ->; split; [reflexivity | constructor] | intros [-> _]; reflexivity].
  - rewrite IH, N.lor_eq_0_iff, Forall_cons. simpl. split.
    + intros [[-> Hxy] Hrest]. apply N.lxor_eq in Hxy. auto.
    + intros [-> [-> Hrest]]. rewrite N.lxor_nilpotent. auto.
Qed.

Lemma zip_all_equal (a : pystr) :
  ∀ b, length a = length b → Forall (λ p : N * N, p.1 = p.2) (zip a b) ↔ a = b.
Proof.
  induction a as [|x a IH]; intros [|y b] Hlen; simpl in *; try discriminate.
  - split; [reflexivity | constructor].
  - rewrite Forall_cons. simpl. rewrite IH by lia. split.
    + intros [-> ->]. reflexivity.
    + intros [= -> ->]. auto.
Qed.

Lemma secure_compare_equality_aux (a b : pystr) :
  _secure_compare a b = Ok (bool_decide (a = b)).
Proof.
  unfold _secure_compare. destruct (Nat.eqb_spec (length a) (length b)) as [Hlen|Hlen]; simpl.
  - f_equal. destruct (N.eqb_spec (mix_equal (zip a b) 0) 0) as [E|E]; symmetry.
    + apply bool_decide_eq_true. apply mix_equal_zero in E as [_ E].
      apply zip_all_equal in E; assumption.
    + apply bool_decide_eq_false. intros Hab. apply E, mix_equal_zero.
      split; [reflexivity|]. apply zip_all_equal; assumption.
  - destruct (mix_unequal_returns a b 0 0) as [r ->]. simpl. f_equal.
    symmetry. apply bool_decide_eq_false. intros ->. congruence.
Qed.

(** [_secure_compare] returns [True] exactly when the two strings are equal;
    it returns for all strings, of equal length or not, empty or not, and
    never indexes [b] out of range. *)
Theorem secure_compare_decides_equality (a b : pystr) :
  (_secure_compare a b = Ok true ↔ a = b)
  ∧ (_secure_compare a b = Ok false ↔ a ≠ b)
  ∧ (∀ i acc, ∃ r, mix_unequal a b i acc = Ok r).
Proof.
  rewrite secure_compare_equality_aux. split_and!.
  - split; [intros [= H]; apply bool_decide_eq_true in H; exact H|].
    intros H. f_equal. apply bool_decide_eq_true. exact H.
  - split; [intros [= H]; apply bool_decide_eq_false in H; exact H|].
    intros H. f_equal. apply bool_decide_eq_false. exact H.
  - apply mix_unequal_returns.
Qed.

Lemma codepoints_inj (s t : string) : codepoints s = codepoints t → s = t.
Proof.
  unfold codepoints. intros H.
  rewrite <- (string_of_list_ascii_of_string s), <- (string_of_list_ascii_of_string t).
  f_equal. revert H. generalize (list_ascii_of_string s) (list_ascii_of_string t).
  induction l as [|c l IH]; intros [|d l'] H; simpl in *; try discriminate; [reflexivity|].
  injection H as Hc Hl. f_equal; [|apply IH, Hl].
  rewrite <- (ascii_N_embedding c), <- (ascii_N_embedding d), Hc. reflexivity.
Qed.

Lemma skip_paths_or_empty (skip_paths : option (gset string)) :
  match skip_paths with
  | Some s => if decide (s = ∅) then ∅ else s
  | None => ∅
  end = default ∅ skip_paths.
Proof.
  destruct skip_paths as [s|]; [|reflexivity]. simpl.
  destruct (decide (s = ∅)); congruence.
Qed.

Lemma or_empty_id (s : string) : or_empty s = s.
Proof. unfold or_empty. destruct (String.eqb_spec s ""); congruence. Qed.

(** The dependency lets a request proceed exactly when its path is exempt,
    or the token is set and not empty and the request carries credentials
    whose scheme is "bearer" in any letter case and whose token equals the
    configured one.  It never fails with anything but an [HTTPException]. *)
Theorem bearer_auth_proceeds_iff
        (environ : gmap string pystr) (env_var : string) (skip_paths : option (gset string))
        (path : string) (creds : option HTTPAuthorizationCredentials) :
  (∃ v, get_bearer_auth_dependency environ env_var skip_paths path creds = Ok v)
  ∧ (get_bearer_auth_dependency environ env_var skip_paths path creds = Ok Proceeds
     ↔ path ∈ default ∅ skip_paths
       ∨ ∃ token cr,
           environ !! env_var = Some token ∧ token ≠ []
           ∧ creds = Some cr
           ∧ lower (scheme cr) = "bearer"
           ∧ codepoints (credentials cr) = token).
Proof.
  unfold get_bearer_auth_dependency. rewrite skip_paths_or_empty.
  destruct (decide (path ∈ default ∅ skip_paths)) as [Hin|Hout].
  { split; [eauto | split; auto]. }
  destruct (environ !! env_var) as [[|c token]|] eqn:Henv.
  - split; [eauto|]. split; [discriminate|].
    intros [?|(t & cr & ? & ? & _)]; [contradiction | congruence].
  - destruct creds as [cr|].
    + destruct (String.eqb_spec (lower (scheme cr)) "bearer") as [Hs|Hs]; simpl.
      * rewrite or_empty_id, secure_compare_equality_aux. simpl.
        destruct (bool_decide_reflect (codepoints (credentials cr) = c :: token)) as [E|E];
          simpl.
        -- split; [eauto|]. split; [|reflexivity].
           intros _. right. exists (c :: token), cr. split_and!; auto.
        -- split; [eauto|]. split; [discriminate|].
           intros [?|(t & cr' & Ht & _ & Hc & _ & Heq)]; [contradiction|].
           simplify_eq.
      * split; [eauto|]. split; [discriminate|].
        intros [?|(t & cr' & _ & _ & Hc & Hl & _)]; [contradiction|]. simplify_eq.
    + split; [eauto|]. split; [discriminate|].
      intros [?|(t & cr' & _ & _ & Hc & _)]; [contradiction | discriminate].
  - split; [eauto|]. split; [discriminate|].
    intros [?|(t & cr & ? & _)]; [contradiction | congruence].
Qed.

(** A request whose path is not exempt is refused with status 500 whenever
    the token is unset or empty, whatever credentials it carries (the check
    fails closed); with a token configured it is refused only with status
    401 and the [WWW-Authenticate: Bearer] challenge: "Not authenticated"
    when the credentials are missing or of another scheme, "Invalid
    authentication credentials" when the token differs. *)
Theorem bearer_auth_refusals
        (environ : gmap string pystr) (env_var : string) (skip_paths : option (gset string))
        (path : string) (creds : option HTTPAuthorizationCredentials) :
  path ∉ default ∅ skip_paths →
  let outcome := get_bearer_auth_dependency environ env_var skip_paths path creds in
  ((environ !! env_var = None ∨ environ !! env_var = Some []) →
   outcome = Ok (Rejected (mk_http_exception 500
                             ("Server misconfiguration: " ++ env_var ++ " is not set.") [])))
  ∧ (∀ token, environ !! env_var = Some token → token ≠ [] →
       match creds with
       | None => outcome = Ok (Rejected (unauthorized "Not authenticated"))
       | Some cr =>
           if String.eqb (lower (scheme cr)) "bearer" then
             if bool_decide (codepoints (credentials cr) = token) then outcome = Ok Proceeds
             else outcome = Ok (Rejected (unauthorized "Invalid authentication credentials"))
           else outcome = Ok (Rejected (unauthorized "Not authenticated"))
       end).
Proof.
  intros Hout. cbv zeta. unfold get_bearer_auth_dependency. rewrite skip_paths_or_empty.
  destruct (decide (path ∈ default ∅ skip_paths)) as [Hin|_]; [contradiction|].
  split.
  - intros [-> | ->]; reflexivity.
  - intros token -> Hne. destruct token as [|c token]; [congruence|].
    destruct creds as [cr|]; [|reflexivity].
    destruct (String.eqb (lower (scheme cr)) "bearer"); simpl; [|reflexivity].
    rewrite or_empty_id, secure_compare_equality_aux. simpl.
    destruct (bool_decide (codepoints (credentials cr) = c :: token)); reflexivity.
Qed.

Lemma bearer_auth_refusals_witness :
  get_bearer_auth_dependency ∅ "API_TOKEN" (Some {[ "/health" ]}) "/chat"
    (Some (mk_credentials "Bearer" "secret"))
  = Ok (Rejected (mk_http_exception 500
                    ("Server misconfiguration: " ++ "API_TOKEN" ++ " is not set.") [])).
Proof.
  apply (bearer_auth_refusals ∅ "API_TOKEN" (Some {[ "/health" ]}) "/chat"
           (Some (mk_credentials "Bearer" "secret"))).
  - simpl. intros H. apply elem_of_singleton in H. discriminate.
  - left. reflexivity.
Defined.

(** The dependency [main.py] installs keeps [/health] public: a request to
    it proceeds whatever the environment and the credentials, also when
    [API_TOKEN] is not set, while a request to any other path is then
    refused with status 500. *)
Theorem health_stays_public (environ : gmap string pystr)
        (creds : option HTTPAuthorizationCredentials) :
  _token_auth environ "/health" creds = Ok Proceeds
  ∧ ∀ path, path ≠ "/health" → environ !! "API_TOKEN" = None →
            ∃ e, _token_auth environ path creds = Ok (Rejected e) ∧ status_code e = 500%nat.
Proof.
  unfold _token_auth, get_bearer_auth_dependency.
  assert ((if decide (({[ "/health" ]} : gset string) = ∅) then ∅ else {[ "/health" ]})
          = ({[ "/health" ]} : gset string)) as ->.
  { destruct (decide (({[ "/health" ]} : gset string) = ∅)) as [E|]; [|reflexivity].
    exfalso. assert ("/health" ∈ (∅ : gset string)) as H by (rewrite <- E; set_solver).
    set_solver. }
  split.
  - destruct (decide ("/health" ∈ ({[ "/health" ]} : gset string))) as [_|N];
      [reflexivity | set_solver].
  - intros path Hne Henv.
    destruct (decide (path ∈ ({[ "/health" ]} : gset string))) as [Hin|_]; [set_solver|].
    rewrite Henv. eexists. split; reflexivity.
Qed.

Lemma health_stays_public_witness :
  ∃ e, _token_auth ∅ "/chat" None = Ok (Rejected e) ∧ status_code e = 500%nat.
Proof.
  apply (proj2 (health_stays_public ∅ None) "/chat").
  - discriminate.
  - reflexivity.
Defined.

(** ** Stripping, splitting and joining *)

Lemma lstrip_head (s : pystr) (c : N) : head (lstrip s) = Some c → is_space c = false.
Proof.
  induction s as [|x s IH]; simpl; [discriminate|].
  destruct (is_space x) eqn:E; [exact IH|]. simpl. intros [= <-]. exact E.
Qed.

Lemma lstrip_clean (s : pystr) :
  (∀ c, head s = Some c → is_space c = false) → lstrip s = s.
Proof.
  destruct s as [|x s]; [reflexivity|]. simpl. intros H. rewrite (H x eq_refl). reflexivity.
Qed.

Lemma lstrip_suffix (s : pystr) : ∃ t, s = t ++ lstrip s ∧ Forall (λ c, is_space c = true) t.
Proof.
  induction s as [|x s (t & Ht & Hsp)]; simpl; [exists []; split; [reflexivity|constructor]|].
  destruct (is_space x) eqn:E.
  - exists (x :: t). split; [simpl; congruence | constructor; assumption].
  - exists []. split; [reflexivity | constructor].
Qed.

Lemma rstrip_last (s : pystr) (c : N) : last (rstrip s) = Some c → is_space c = false.
Proof.
  unfold rstrip. rewrite last_reverse. apply lstrip_head.
Qed.

Lemma rstrip_clean (s : pystr) :
  (∀ c, last s = Some c → is_space c = false) → rstrip s = s.
Proof.
  intros H. unfold rstrip. rewrite lstrip_clean; [apply reverse_involutive|].
  intros c Hc. apply H. rewrite <- head_reverse. exact Hc.
Qed.

Lemma rstrip_prefix (s : pystr) : ∃ t, s = rstrip s ++ t ∧ Forall (λ c, is_space c = true) t.
Proof.
  unfold rstrip. destruct (lstrip_suffix (reverse s)) as (t & Ht & Hsp).
  exists (reverse t). split.
  - rewrite <- (reverse_involutive s) at 1. rewrite Ht at 1. apply reverse_app.
  - apply Forall_reverse. exact Hsp.
Qed.

Lemma strip_head (s : pystr) (c : N) : head (strip s) = Some c → is_space c = false.
Proof.
  unfold strip. destruct (rstrip_prefix (lstrip s)) as (t & Ht & _).
  intros Hc. apply (lstrip_head s). rewrite Ht.
  destruct (rstrip (lstrip s)); [discriminate | exact Hc].
Qed.

Lemma strip_last (s : pystr) (c : N) : last (strip s) = Some c → is_space c = false.
Proof. apply rstrip_last. Qed.

Lemma strip_clean (s : pystr) :
  (∀ c, head s = Some c → is_space c = false) →
  (∀ c, last s = Some c → is_space c = false) →
  strip s = s.
Proof.
  intros Hh Hl. unfold strip. rewrite lstrip_clean by exact Hh. apply rstrip_clean, Hl.
Qed.

Lemma strip_sublist (s : pystr) (c : N) : c ∈ strip s → c ∈ s.
Proof.
  unfold strip. destruct (rstrip_prefix (lstrip s)) as (t & Ht & _).
  destruct (lstrip_suffix s) as (u & Hu & _).
  intros Hc. rewrite Hu, Ht. set_solver.
Qed.

Lemma split_on_nonempty (sep : N) (s : pystr) : split_on sep s ≠ [].
Proof.
  induction s as [|c s IH]; simpl; [discriminate|].
  destruct (c =? sep)%N; [discriminate|]. destruct (split_on sep s); discriminate.
Qed.

Lemma split_on_no_sep (sep : N) (s : pystr) :
  Forall (λ piece, sep ∉ piece) (split_on sep s).
Proof.
  induction s as [|c s IH]; simpl.
  - repeat constructor. set_solver.
  - destruct (N.eqb_spec c sep) as [->|Hne].
    + constructor; [set_solver | exact IH].
    + destruct (split_on sep s) as [|piece pieces].
      * constructor; [|constructor].
        intros H%list_elem_of_singleton. congruence.
      * apply Forall_cons in IH as [Hp Hps]. constructor; [|exact Hps].
        intros [H|H]%elem_of_cons; [congruence | exact (Hp H)].
Qed.

Lemma split_on_whole (sep : N) (x : pystr) : sep ∉ x → split_on sep x = [x].
Proof.
  induction x as [|c x IH]; intros Hx; [reflexivity|].
  simpl. destruct (N.eqb_spec c sep) as [->|Hne]; [set_solver|].
  rewrite IH by set_solver. reflexivity.
Qed.

Lemma split_on_app_sep (sep : N) (x rest : pystr) :
  sep ∉ x → split_on sep (x ++ sep :: rest) = x :: split_on sep rest.
Proof.
  induction x as [|c x IH]; intros Hx.
  - simpl. rewrite N.eqb_refl. reflexivity.
  - simpl. destruct (N.eqb_spec c sep) as [->|Hne]; [set_solver|].
    rewrite IH by set_solver. reflexivity.
Qed.

Lemma split_on_join (sep : N) (items : list pystr) :
  items ≠ [] → Forall (λ item, sep ∉ item) items → split_on sep (join sep items) = items.
Proof.
  induction items as [|x items IH]; [congruence|]. intros _ Hall.
  apply Forall_cons in Hall as [Hx Hitems].
  destruct items as [|y items].
  - apply split_on_whole, Hx.
  - change (join sep (x :: y :: items)) with (x ++ sep :: join sep (y :: items)).
    rewrite split_on_app_sep by exact Hx. f_equal. apply IH; [discriminate | exact Hitems].
Qed.

(** ** [parse_csv] *)

Lemma parse_csv_clean (value : option pystr) :
  Forall (λ item, item ≠ []
                  ∧ (∀ c, head item = Some c → is_space c = false)
                  ∧ (∀ c, last item = Some c → is_space c = false)
                  ∧ comma ∉ item)
         (parse_csv value).
Proof.
  destruct value as [[|c s]|]; try constructor.
  unfold parse_csv. apply Forall_map, Forall_forall. intros piece Hin.
  apply list_elem_of_In, filter_In in Hin as [Hin Hne].
  split_and!.
  - destruct (strip piece); [discriminate | congruence].
  - apply strip_head.
  - apply strip_last.
  - intros Hc. apply strip_sublist in Hc.
    pose proof (split_on_no_sep comma (c :: s)) as Hno.
    rewrite Forall_forall in Hno. apply (Hno piece); [apply list_elem_of_In, Hin | exact Hc].
Qed.

(** Every item [parse_csv] returns is non-empty, starts and ends with a
    character that is not whitespace, and contains no comma. *)
Theorem parse_csv_items_are_clean (value : option pystr) (item : pystr) :
  item ∈ parse_csv value →
  item ≠ []
  ∧ (∀ c, head item = Some c → is_space c = false)
  ∧ (∀ c, last item = Some c → is_space c = false)
  ∧ comma ∉ item.
Proof.
  intros Hin. pose proof (parse_csv_clean value) as H.
  rewrite Forall_forall in H. apply H, Hin.
Qed.

(** Joining the items [parse_csv] returns with commas and parsing the result
    gives the same items back: parsing normalises, and a normalised value is
    stable. *)
Theorem parse_csv_join_round_trip (value : option pystr) :
  parse_csv (Some (join comma (parse_csv value))) = parse_csv value.
Proof.
  pose proof (parse_csv_clean value) as Hclean.
  destruct (parse_csv value) as [|x items] eqn:E; [reflexivity|].
  assert (split_on comma (join comma (x :: items)) = x :: items) as Hsplit.
  { apply split_on_join; [discriminate|].
    eapply Forall_impl; [exact Hclean|]. intros item (_ & _ & _ & H). exact H. }
  assert (join comma (x :: items) ≠ []) as Hne.
  { apply Forall_cons in Hclean as [(Hx & _) _].
    destruct x; [congruence|]. destruct items; discriminate. }
  unfold parse_csv at 1. destruct (join comma (x :: items)) as [|c s] eqn:Ej; [congruence|].
  rewrite Hsplit. clear Hsplit Hne Ej E.
  induction Hclean as [|item rest (Hi & Hh & Hl & _) _ IH]; [reflexivity|].
  simpl. rewrite (strip_clean item Hh Hl).
  destruct item; [congruence|]. simpl. rewrite (strip_clean _ Hh Hl). f_equal. exact IH.
Qed.

Lemma split_on_covers (sep : N) (s : pystr) (c : N) :
  c ∈ s → c ≠ sep → ∃ piece, piece ∈ split_on sep s ∧ c ∈ piece.
Proof.
  induction s as [|x s IH]; intros Hin Hne; [set_solver|].
  simpl. apply elem_of_cons in Hin as [->|Hin].
  - destruct (N.eqb_spec x sep) as [->|_]; [congruence|].
    destruct (split_on sep s) as [|piece pieces]; eexists; split; constructor.
  - destruct (IH Hin Hne) as (piece & Hp & Hc).
    destruct (N.eqb_spec x sep) as [->|_].
    + exists piece. split; [right; exact Hp | exact Hc].
    + destruct (split_on sep s) as [|p ps]; [set_solver|].
      apply elem_of_cons in Hp as [->|Hp].
      * exists (x :: p). split; [left | right; exact Hc].
      * exists piece. split; [right; exact Hp | exact Hc].
Qed.

Lemma split_on_within (sep : N) (s piece : pystr) (c : N) :
  piece ∈ split_on sep s → c ∈ piece → c ∈ s.
Proof.
  revert piece. induction s as [|x s IH]; intros piece Hp Hc; simpl in Hp.
  - apply list_elem_of_singleton in Hp as ->. exact Hc.
  - destruct (N.eqb_spec x sep) as [->|_].
    + apply elem_of_cons in Hp as [->|Hp]; [set_solver|]. right. eapply IH; eassumption.
    + destruct (split_on sep s) as [|p ps] eqn:E.
      * apply list_elem_of_singleton in Hp as ->.
        apply list_elem_of_singleton in Hc as ->. left.
      * apply elem_of_cons in Hp as [->|Hp].
        -- destruct (proj1 (elem_of_cons _ _ _) Hc) as [->|Hc']; [left|].
           right. apply (IH p); [left|exact Hc'].
        -- right. apply (IH piece); [right; exact Hp | exact Hc].
Qed.

Lemma strip_keeps (s : pystr) (c : N) : c ∈ s → is_space c = false → c ∈ strip s.
Proof.
  intros Hin Hns. unfold strip.
  destruct (lstrip_suffix s) as (t & Ht & Hsp).
  destruct (rstrip_prefix (lstrip s)) as (u & Hu & Hsu).
  rewrite Ht, Hu in Hin. rewrite Forall_forall in Hsp, Hsu.
  apply elem_of_app in Hin as [Hin|Hin]; [specialize (Hsp c Hin); congruence|].
  apply elem_of_app in Hin as [Hin|Hin]; [exact Hin | specialize (Hsu c Hin); congruence].
Qed.

Lemma parse_csv_nonempty_iff (s : pystr) :
  parse_csv (Some s) ≠ [] ↔ ∃ c, c ∈ s ∧ c ≠ comma ∧ is_space c = false.
Proof.
  split.
  - intros Hne. destruct (parse_csv (Some s)) as [|item items] eqn:E; [congruence|].
    assert (item ∈ parse_csv (Some s)) as Hin by (rewrite E; left).
    pose proof (parse_csv_clean (Some s)) as Hclean. rewrite Forall_forall in Hclean.
    destruct (Hclean item Hin) as (Hi & Hh & _ & Hcomma).
    destruct item as [|c item]; [congruence|]. exists c.
    split_and!; [| intros ->; apply Hcomma; left | apply Hh; reflexivity].
    destruct s as [|x s]; [discriminate|]. unfold parse_csv in Hin.
    apply list_elem_of_fmap in Hin as (piece & Ep & Hp).
    apply list_elem_of_In, filter_In in Hp as [Hp _]. apply list_elem_of_In in Hp.
    apply (split_on_within comma (x :: s) piece); [exact Hp|].
    apply strip_sublist. rewrite <- Ep. left.
  - intros (c & Hin & Hne & Hns).
    destruct (split_on_covers comma s c Hin Hne) as (piece & Hp & Hc).
    pose proof (strip_keeps piece c Hc Hns) as Hk.
    destruct s as [|x s]; [set_solver|]. unfold parse_csv.
    assert (strip piece ∈ map strip (List.filter (λ x0, nonempty (strip x0))
                                       (split_on comma (x :: s)))) as Hmem.
    { apply list_elem_of_fmap. exists piece. split; [reflexivity|].
      apply list_elem_of_In, filter_In. split; [apply list_elem_of_In, Hp|].
      destruct (strip piece); [set_solver | reflexivity]. }
    intros E. rewrite E in Hmem. set_solver.
Qed.

(** The CORS middleware is added exactly when the raw setting holds a
    character that is neither a comma nor whitespace; its origins are then
    the items of [parse_csv].  Unset, empty or blank settings (only commas
    and whitespace) leave CORS off. *)
Theorem cors_enabled_iff (raw : option pystr) :
  (is_Some (cors_middleware raw)
   ↔ ∃ s c, raw = Some s ∧ c ∈ s ∧ c ≠ comma ∧ is_space c = false)
  ∧ (∀ origins, cors_middleware raw = Some origins → origins = parse_csv raw)
  ∧ cors_middleware None = None
  ∧ cors_middleware (Some []) = None.
Proof.
  unfold cors_middleware, normalized_cors_allow_origins. split_and!; try reflexivity.
  - destruct raw as [s|]; [|split; [intros [? ?]; discriminate | intros (? & ? & ? & _); discriminate]].
    pose proof (parse_csv_nonempty_iff s) as Hiff.
    destruct (parse_csv (Some s)) as [|o os]; split.
    + intros [? ?]; discriminate.
    + intros (s' & c & [= <-] & H). exfalso. apply (proj2 Hiff); [eauto | reflexivity].
    + intros _. destruct (proj1 Hiff ltac:(discriminate)) as (c & H). eauto.
    + intros _. eauto.
  - intros origins. destruct raw as [s|]; [|discriminate].
    destruct (parse_csv (Some s)) as [|o os]; [discriminate|]. congruence.
Qed.

Lemma parse_csv_items_are_clean_witness :
  codepoints "b" ≠ []
  ∧ (∀ c, head (codepoints "b") = Some c → is_space c = false)
  ∧ (∀ c, last (codepoints "b") = Some c → is_space c = false)
  ∧ comma ∉ codepoints "b".
Proof.
  apply (parse_csv_items_are_clean (Some (codepoints " a , b,, ")) (codepoints "b")).
  vm_compute. right. left.
Defined.

(** ** The password tool *)

Lemma char_range_spec (first count : nat) (c : N) :
  c ∈ char_range first count ↔ (N.of_nat first <= c < N.of_nat first + N.of_nat count)%N.
Proof.
  unfold char_range. rewrite list_elem_of_fmap. split.
  - intros (n & -> & Hn). apply elem_of_seq in Hn. lia.
  - intros H. exists (N.to_nat c). split; [lia|]. apply elem_of_seq. lia.
Qed.

Lemma ascii_letters_spec (c : N) : c ∈ ascii_letters ↔ is_letter c = true.
Proof.
  unfold ascii_letters, is_letter. rewrite elem_of_app, !char_range_spec.
  rewrite orb_true_iff, !andb_true_iff, !N.leb_le. lia.
Qed.

Lemma digits_spec (c : N) : c ∈ digits ↔ is_digit c = true.
Proof.
  unfold digits, is_digit. rewrite char_range_spec, andb_true_iff, !N.leb_le. lia.
Qed.

Lemma punctuation_spec (c : N) : c ∈ punctuation ↔ is_punctuation c = true.
Proof.
  unfold punctuation, is_punctuation. rewrite !elem_of_app, !char_range_spec.
  rewrite !orb_true_iff, !andb_true_iff, !N.leb_le. lia.
Qed.

Lemma for_all_choices (randbelow : nat → nat → nat) (chars : pystr) (ks : list nat) :
  (∀ k, randbelow k (length chars) < length chars)%nat →
  ∃ senha, for_all (λ i, random_choice randbelow i chars) ks = Ok senha
           ∧ length senha = length ks
           ∧ Forall (λ c, c ∈ chars) senha.
Proof.
  intros Hbelow. induction ks as [|k ks (senha & E & Hlen & Hall)].
  - exists []. repeat split. constructor.
  - simpl. unfold random_choice at 1, str_index.
    destruct (lookup_lt_is_Some_2 chars (randbelow k (length chars)) (Hbelow k)) as [c Hc].
    rewrite Hc. simpl. rewrite E. simpl. exists (c :: senha).
    split; [reflexivity|]. split; [simpl; congruence|].
    constructor; [eapply list_elem_of_lookup_2, Hc | exact Hall].
Qed.

(** For a size from 8 to 128 and a generator whose values stay below their
    bound, the tool returns the success message followed by a password of
    exactly that many characters, each an ASCII letter, or a digit if digits
    were asked for, or a punctuation mark if symbols were asked for, and
    nothing else.  For every other size it returns the error message instead,
    whatever the options and the generator. *)
Theorem gerador_de_senhas_contract (randbelow : nat → nat → nat)
        (tamanho : Z) (incluir_numeros incluir_simbolos : bool) :
  (∀ k n, 0 < n → randbelow k n < n)%nat →
  (8 ≤ tamanho ≤ 128 →
   ∃ senha,
     gerador_de_senhas randbelow tamanho incluir_numeros incluir_simbolos
     = Ok (codepoints "Senha gerada com sucesso: " ++ senha)
     ∧ Z.of_nat (length senha) = tamanho
     ∧ Forall (λ c, is_letter c = true
                    ∨ (incluir_numeros = true ∧ is_digit c = true)
                    ∨ (incluir_simbolos = true ∧ is_punctuation c = true)) senha)
  ∧ (¬ (8 ≤ tamanho ≤ 128) →
     gerador_de_senhas randbelow tamanho incluir_numeros incluir_simbolos
     = Ok (codepoints "Erro: O tamanho da senha deve ser entre 8 e 128 caracteres.")).
Proof.
  intros Hbelow. unfold gerador_de_senhas. split.
  - intros Hsize.
    assert ((8 <=? tamanho) && (tamanho <=? 128) = true) as ->
      by (apply andb_true_iff; split; apply Z.leb_le; lia).
    cbv zeta. cbn [negb].
    set (chars := if incluir_simbolos then _ else _).
    assert (0 < length chars)%nat as Hpos.
    { subst chars. destruct incluir_numeros, incluir_simbolos;
        rewrite ?length_app; unfold ascii_letters; rewrite length_app;
        unfold char_range; rewrite !length_map, !length_seq; lia. }
    destruct (for_all_choices randbelow chars (seq 0 (Z.to_nat tamanho)))
      as (senha & -> & Hlen & Hall).
    { intros k. apply Hbelow, Hpos. }
    exists senha. split; [reflexivity|]. rewrite length_seq in Hlen.
    split; [lia|]. eapply Forall_impl; [exact Hall|].
    intros c Hc. subst chars.
    destruct incluir_numeros, incluir_simbolos;
      rewrite ?elem_of_app, ?ascii_letters_spec, ?digits_spec, ?punctuation_spec in Hc;
      intuition auto.
  - intros Hsize.
    assert ((8 <=? tamanho) && (tamanho <=? 128) = false) as ->; [|reflexivity].
    apply andb_false_iff. rewrite !Z.leb_gt. lia.
Qed.

Lemma gerador_de_senhas_contract_witness :
  gerador_de_senhas (λ k n, (7 * k + 3) mod n)%nat 7 true true
  = Ok (codepoints "Erro: O tamanho da senha deve ser entre 8 e 128 caracteres.")
  ∧ ∃ senha,
      gerador_de_senhas (λ k n, (7 * k + 3) mod n)%nat 8 true false
      = Ok (codepoints "Senha gerada com sucesso: " ++ senha)
      ∧ Z.of_nat (length senha) = 8.
Proof.
  destruct (gerador_de_senhas_contract (λ k n, (7 * k + 3) mod n)%nat 7 true true)
    as [_ Herr].
  { intros k n Hn. apply Nat.mod_upper_bound. lia. }
  destruct (gerador_de_senhas_contract (λ k n, (7 * k + 3) mod n)%nat 8 true false)
    as [Hok _].
  { intros k n Hn. apply Nat.mod_upper_bound. lia. }
  split.
  - apply Herr. lia.
  - destruct (Hok ltac:(lia)) as (senha & E & Hlen & _). exists senha. split; assumption.
Defined.

(** ** Headers *)

Lemma headers_without_get (key : string) (hs : header_list) :
  headers_get key (headers_without key hs) = None.
Proof.
  induction hs as [|[name v] hs IH]; [reflexivity|]. simpl.
  destruct (String.eqb name (lower key)) eqn:E; [exact IH|]. simpl. rewrite E. exact IH.
Qed.

Lemma headers_without_other (key other : string) (hs : header_list) :
  lower other ≠ lower key →
  headers_get other (headers_without key hs) = headers_get other hs.
Proof.
  intros Hne. induction hs as [|[name v] hs IH]; [reflexivity|]. simpl.
  destruct (String.eqb_spec name (lower key)) as [->|Hk].
  - destruct (String.eqb_spec (lower key) (lower other)); [congruence | exact IH].
  - simpl. rewrite IH. reflexivity.
Qed.

Lemma headers_set_get (key value : string) (hs : header_list) :
  headers_get key (headers_set key value hs) = Some value.
Proof.
  induction hs as [|[name v] hs IH]; simpl.
  - rewrite String.eqb_refl. reflexivity.
  - destruct (String.eqb name (lower key)) eqn:E; simpl.
    + rewrite String.eqb_refl. reflexivity.
    + rewrite E. exact IH.
Qed.

Lemma headers_set_other (key other value : string) (hs : header_list) :
  lower other ≠ lower key →
  headers_get other (headers_set key value hs) = headers_get other hs.
Proof.
  intros Hne. induction hs as [|[name v] hs IH]; simpl.
  - destruct (String.eqb_spec (lower key) (lower other)); [congruence | reflexivity].
  - destruct (String.eqb_spec name (lower key)) as [->|Hk]; simpl.
    + destruct (String.eqb_spec (lower key) (lower other)); [congruence|].
      apply headers_without_other, Hne.
    + rewrite IH. reflexivity.
Qed.

Lemma headers_set_once (key value : string) (hs : header_list) :
  length (List.filter (λ h, String.eqb h.1 (lower key)) (headers_set key value hs)) = 1%nat.
Proof.
  assert (∀ l, List.filter (λ h : string * string, String.eqb h.1 (lower key))
                 (headers_without key l) = []) as Hnone.
  { induction l as [|[name v] l IH]; [reflexivity|]. simpl.
    destruct (String.eqb name (lower key)) eqn:E; [exact IH|]. simpl. rewrite E. exact IH. }
  induction hs as [|[name v] hs IH]; simpl.
  - rewrite String.eqb_refl. reflexivity.
  - destruct (String.eqb name (lower key)) eqn:E; simpl.
    + rewrite String.eqb_refl, Hnone. reflexivity.
    + rewrite E. exact IH.
Qed.

(** ** The request id *)

(** When the application answers, the response leaves the request-id
    middleware with exactly one [x-request-id] header: the client's, when the
    request had a non-empty one, and the generated one otherwise (also when
    the application had set one of its own).  Status, body and the headers of
    other names are unchanged.  When the application raises, so does the
    middleware. *)
Theorem request_id_is_propagated_or_generated (uuid : string)
        (call_next : Request → result Response) (request : Request) :
  match call_next request with
  | Ok response =>
      ∃ response',
        request_id_dispatch uuid call_next request = Ok response'
        ∧ headers_get "x-request-id" (response_headers response')
          = Some (match headers_get "x-request-id" (request_headers request) with
                  | Some rid => if String.eqb rid "" then uuid else rid
                  | None => uuid
                  end)
        ∧ length (List.filter (λ h, String.eqb h.1 "x-request-id")
                              (response_headers response')) = 1%nat
        ∧ (∀ name, lower name ≠ "x-request-id" →
                   headers_get name (response_headers response')
                   = headers_get name (response_headers response))
        ∧ response_status response' = response_status response
        ∧ response_body response' = response_body response
  | other => request_id_dispatch uuid call_next request = other
  end.
Proof.
  unfold request_id_dispatch.
  destruct (call_next request) as [response|e|]; simpl; [|reflexivity..].
  eexists. split; [reflexivity|]. simpl. split_and!; try reflexivity.
  - apply headers_set_get.
  - apply (headers_set_once "x-request-id").
  - intros name Hne. apply headers_set_other. exact Hne.
Qed.

(** ** The access log *)

(** A request whose handling returns or raises leaves exactly one access
    line, and the outcome passes through unchanged.  The line carries the
    status of the response, or none when the handling raised, and the
    request's own [x-request-id] or "-": as the access log is the outer
    middleware, a request that came without an id is logged with "-" even
    though its response carries the id the inner middleware generated. *)
Theorem access_log_once_per_request (uuid : string) (duration_ms : Q)
        (app : Request → result Response) (request : Request) :
  app request ≠ Hang →
  ∃ line,
    snd (middleware_stack uuid duration_ms app request) = [line]
    ∧ fst (middleware_stack uuid duration_ms app request)
      = request_id_dispatch uuid app request
    ∧ log_status line
      = match app request with Ok response => Some (response_status response) | _ => None end
    ∧ log_request_id line
      = or_else (headers_get "x-request-id" (request_headers request)) "-"
    ∧ log_method line = method request
    ∧ log_path line = url_path request
    ∧ (headers_get "x-request-id" (request_headers request) = None → uuid ≠ "" →
       log_request_id line = "-"
       ∧ ∀ response, fst (middleware_stack uuid duration_ms app request) = Ok response →
                     headers_get "x-request-id" (response_headers response) = Some uuid).
Proof.
  intros Hnh. unfold middleware_stack, access_log_dispatch, request_id_dispatch.
  destruct (app request) as [response|e|] eqn:E; [| |congruence]; simpl.
  - eexists. split; [reflexivity|]. simpl. split_and!; try reflexivity.
    intros Hnone Hu. rewrite Hnone. simpl. split; [reflexivity|].
    intros r [= <-]. simpl. apply headers_set_get.
  - eexists. split; [reflexivity|]. simpl. split_and!; try reflexivity.
    intros Hnone Hu. rewrite Hnone. simpl. split; [reflexivity | discriminate].
Qed.

Lemma access_log_once_per_request_witness :
  ∃ line,
    snd (middleware_stack "0b7e" 12
           (λ _, Ok (mk_http_response 200 [] "ok"))
           (mk_request "GET" "/health" [] None)) = [line]
    ∧ log_request_id line = "-"
    ∧ log_status line = Some 200%nat.
Proof.
  destruct (access_log_once_per_request "0b7e" 12
              (λ _, Ok (mk_http_response 200 [] "ok"))
              (mk_request "GET" "/health" [] None))
    as (line & Hl & _ & Hs & Hr & _).
  - discriminate.
  - exists line. split; [exact Hl|]. split; [exact Hr | exact Hs].
Defined.

(** ** The routes *)


Lemma flaky_worker_texts_are_strings : texts_are_strings flaky_worker.
Proof.
  intros [|[|k]] c i m v; vm_compute; intros [= <-]; eauto.
Qed.


Lemma run_single_task {A} (task : pyM A) (w : world) :
  run_background_tasks [task] w
  = match task w with
    | (Ok _, w', evs) => (Ok tt, w', evs)
    | (Raise e, w', evs) => (Raise e, w', evs)
    | (Hang, w', evs) => (Hang, w', evs)
    end.
Proof.
  simpl. rewrite bind_run. destruct (task w) as [[[a|e|] w'] evs]; try reflexivity.
  simpl. rewrite app_nil_r. reflexivity.
Qed.


(** ** The lifespan *)

Lemma app_bind_run {A B} (m : appM A) (k : A → appM B) (w : world) :
  (m ≫= k) w =
  match m w with
  | (Ok a, w1, ev1) => let '(r, w2, ev2) := k a w1 in (r, w2, ev1 ++ ev2)
  | (Raise e, w1, ev1) => (Raise e, w1, ev1)
  | (Hang, w1, ev1) => (Hang, w1, ev1)
  end.
Proof. reflexivity. Qed.

Lemma app_seq_run {A} (m : appM unit) (k : appM A) (w : world) ev0 :
  m w = (Ok tt, w, ev0) →
  (m;; k) w = let '(r, w2, ev2) := k w in (r, w2, ev0 ++ ev2).
Proof. intros Hm. rewrite app_bind_run, Hm. reflexivity. Qed.

Lemma app_try_finally_run {A} (m : appM A) (f : appM unit) w r ws evs w2 ev2 :
  m w = (r, ws, evs) → r ≠ Hang → f ws = (Ok tt, w2, ev2) →
  app_try_finally m f w = (r, w2, evs ++ ev2).
Proof.
  intros Hm Hr Hf. unfold app_try_finally. rewrite Hm.
  destruct r; [| |congruence]; rewrite Hf; reflexivity.
Qed.

(** The cleanup of the lifespan, from any store. *)
Lemma lifespan_cleanup_run (w : world) :
  ∃ evs,
    (app_try_except
       (core (shutdown_executor true);;
        app_log INFO "Background executor shutdown complete")
       (λ e, app_log WARNING ("Error shutting down executor: " ++ exn_msg e));;
     app_log INFO "Application shutdown complete") w
    = (Ok tt, world_of (shutdown_executor true w), evs).
Proof.
  rewrite app_bind_run. unfold app_try_except. rewrite app_bind_run.
  unfold core. rewrite shutdown_executor_run.
  destruct (_executor w); eexists; reflexivity.
Qed.

Lemma lifespan_run settings (serve : appM unit) (w : world) r ws evs :
  serve w = (r, ws, evs) → r ≠ Hang →
  ∃ ev0 evc, lifespan settings serve w
             = (r, world_of (shutdown_executor true ws), ev0 ++ evs ++ evc).
Proof.
  intros Es Hnh. destruct (lifespan_cleanup_run ws) as [evc Ec].
  unfold lifespan.
  destruct (configured (model_id settings)).
  - rewrite (app_seq_run _ _ w [] eq_refl).
    rewrite (app_seq_run _ _ w [AppLogged INFO "Application startup complete"] eq_refl).
    rewrite (app_try_finally_run _ _ _ _ _ _ _ _ Es Hnh Ec).
    exists [AppLogged INFO "Application startup complete"], evc. reflexivity.
  - rewrite (app_seq_run _ _ w [AppLogged ERROR _] eq_refl).
    rewrite (app_seq_run _ _ w [AppLogged INFO "Application startup complete"] eq_refl).
    rewrite (app_try_finally_run _ _ _ _ _ _ _ _ Es Hnh Ec).
    eexists [_; _], evc. reflexivity.
Qed.



(** ** The log file of an interaction *)

Lemma filter_keeps (isalnum : N → bool) (s : pystr) (c : N) :
  c ∈ rstrip (List.filter (keeps_char isalnum) s) → c ∈ s ∧ keeps_char isalnum c = true.
Proof.
  intros Hc. destruct (rstrip_prefix (List.filter (keeps_char isalnum) s)) as (t & Ht & _).
  assert (c ∈ List.filter (keeps_char isalnum) s) as Hin by (rewrite Ht; set_solver).
  apply list_elem_of_In, filter_In in Hin. destruct Hin as [Hin Hk].
  split; [apply list_elem_of_In; exact Hin | exact Hk].
Qed.

(** Whatever the chat id (one with dots and separators included), the file
    of an interaction lies directly inside [tmp]: its path is [tmp/] followed
    by a non-empty name without separator and by [.txt], provided the
    separator is not alphanumeric; the name is [invalid_chat_id] or made of
    characters of the chat id that are alphanumeric, [-] or [_]. *)
Theorem log_file_stays_inside_tmp (isalnum : N → bool) (chat_id : pystr) :
  isalnum 47%N = false →
  ∃ name,
    log_file_path isalnum chat_id = codepoints "tmp/" ++ name ++ codepoints ".txt"
    ∧ name = safe_chat_id isalnum chat_id
    ∧ name ≠ []
    ∧ (47%N ∉ name)
    ∧ (name = codepoints "invalid_chat_id"
       ∨ Forall (λ c, c ∈ chat_id ∧ (isalnum c = true ∨ c = 45%N ∨ c = 95%N)) name).
Proof.
  intros Hsep. exists (safe_chat_id isalnum chat_id).
  assert (safe_chat_id isalnum chat_id ≠ []
          ∧ (47%N ∉ safe_chat_id isalnum chat_id)
          ∧ (safe_chat_id isalnum chat_id = codepoints "invalid_chat_id"
             ∨ Forall (λ c, c ∈ chat_id ∧ (isalnum c = true ∨ c = 45%N ∨ c = 95%N))
                      (safe_chat_id isalnum chat_id))) as (Hne & Hno & Hchars).
  { unfold safe_chat_id.
    destruct (rstrip (List.filter (keeps_char isalnum) chat_id)) as [|c0 kept] eqn:E.
    - split_and!; [discriminate | | left; reflexivity].
      vm_compute. intros H. repeat (apply elem_of_cons in H as [H|H]; [discriminate|]).
      inversion H.
    - assert (∀ c, c ∈ c0 :: kept → c ∈ chat_id ∧ keeps_char isalnum c = true) as Hk.
      { intros c Hc. apply filter_keeps. rewrite E. exact Hc. }
      split_and!; [discriminate | |].
      + intros H. destruct (Hk _ H) as [_ Hkeep]. unfold keeps_char in Hkeep.
        rewrite Hsep in Hkeep. discriminate.
      + right. apply Forall_forall. intros c Hc. destruct (Hk c Hc) as [Hin Hkeep].
        split; [exact Hin|]. unfold keeps_char in Hkeep.
        apply orb_true_iff in Hkeep as [Hkeep|Hkeep];
          [apply orb_true_iff in Hkeep as [Hkeep|Hkeep]|].
        * left; exact Hkeep.
        * right; left. apply N.eqb_eq. exact Hkeep.
        * right; right. apply N.eqb_eq. exact Hkeep. }
  split_and!; try done.
  unfold log_file_path, path_join.
  destruct (safe_chat_id isalnum chat_id) as [|c name]; [congruence|].
  assert (c ≠ 47%N) as Hc by (intros ->; apply Hno; left).
  unfold startswith_sep. cbn [head app].
  apply N.eqb_neq in Hc. rewrite Hc. reflexivity.
Qed.

Lemma log_file_stays_inside_tmp_witness :
  ∃ name,
    log_file_path ascii_isalnum (codepoints "../etc/passwd")
    = codepoints "tmp/" ++ name ++ codepoints ".txt"
    ∧ name = safe_chat_id ascii_isalnum (codepoints "../etc/passwd")
    ∧ name ≠ []
    ∧ (47%N ∉ name)
    ∧ (name = codepoints "invalid_chat_id"
       ∨ Forall (λ c, c ∈ codepoints "../etc/passwd"
                      ∧ (ascii_isalnum c = true ∨ c = 45%N ∨ c = 95%N)) name).
Proof.
  apply (log_file_stays_inside_tmp ascii_isalnum (codepoints "../etc/passwd")).
  reflexivity.
Defined.
